(** * Minesweeper knowledge-based agent: a shallow embedding of minesweeper.py

    The Python program keeps [Sentence] objects in lists and mutates them in
    place, so the embedding has an explicit object store: a sentence object
    is a location in [objects], and the [knowledge] list holds locations.
    Python sets are [gset]s, Python integers are [Z], and a loop over a set
    visits [elements] of it. *)

From stdpp Require Import base gmap sets list.
From Stdlib Require Import ZArith Lia.

#[local] Set Warnings "-clear-no-such-hyp".

Abbreviation Cell := (Z * Z)%type.

(** Truth value of [x] where [x] is a set or [None]: [if x:] in Python. *)
Definition truthy (x : option (gset Cell)) : bool :=
  match x with
  | Some s => bool_decide (s ≠ ∅)
  | None => false
  end.

(** [range(a, b)] *)
Definition range (a b : Z) : list Z := seqZ a (b - a).

(** ** class Sentence *)
Module Sentence.

Record t : Type := init { cells : gset Cell; count : Z }.

#[global] Instance t_eq_dec : EqDecision t.
Proof. solve_decision. Defined.

(** [__eq__] *)
Definition eq (self other : t) : bool :=
  bool_decide (cells self = cells other) && bool_decide (count self = count other).

Definition known_mines (self : t) : option (gset Cell) :=
  if bool_decide (Z.of_nat (size (cells self)) = count self)
  then Some (cells self)
  else None.

Definition known_safes (self : t) : option (gset Cell) :=
  if bool_decide (count self = 0%Z)
  then Some (cells self)
  else None.

Definition mark_mine (cell : Cell) (self : t) : t :=
  if bool_decide (cell ∈ cells self)
  then {| cells := cells self ∖ {[cell]}; count := (count self - 1)%Z |}
  else self.

Definition mark_safe (cell : Cell) (self : t) : t :=
  if bool_decide (cell ∈ cells self)
  then {| cells := cells self ∖ {[cell]}; count := count self |}
  else self.

End Sentence.

(** ** class Minesweeper (the board); only what [nearby_mines] reads *)
Module Minesweeper.

Record t : Type := { height : Z; width : Z; board : list (list bool) }.

(** [self.board[i][j]] for indices already checked to be in range;
    [__init__] builds [height] rows of [width] cells, so the element is
    there. *)
Definition board_get (self : t) (i j : Z) : bool :=
  default false (row ← board self !! Z.to_nat i; row !! Z.to_nat j).

(** The guarded test of [nearby_mines]:
    [0 <= i < self.height and 0 <= j < self.width] and then [self.board[i][j]]. *)
Definition mine_in_bounds (self : t) (c : Cell) : bool :=
  bool_decide (0 ≤ c.1 < height self)%Z && bool_decide (0 ≤ c.2 < width self)%Z
  && board_get self c.1 c.2.

Definition nearby_mines (self : t) (cell : Cell) : Z :=
  foldl (λ count i,
    foldl (λ count j,
      if bool_decide ((i, j) = cell) then count
      else if mine_in_bounds self (i, j) then (count + 1)%Z else count)
    count (range (cell.2 - 1) (cell.2 + 2)))
  0%Z (range (cell.1 - 1) (cell.1 + 2)).

End Minesweeper.

(** ** class MinesweeperAI *)
Module MinesweeperAI.

(** A reference to a [Sentence] object. *)
Definition loc : Type := nat.

Record t : Type := mk {
  height : Z;
  width : Z;
  moves_made : gset Cell;
  mines : gset Cell;
  safes : gset Cell;
  knowledge : list loc;
  (** the store of all [Sentence] objects created so far *)
  objects : list Sentence.t
}.

(** [MinesweeperAI(height, width)] *)
Definition init (h w : Z) : t :=
  {| height := h; width := w; moves_made := ∅; mines := ∅; safes := ∅;
     knowledge := []; objects := [] |}.

Definition set_moves_made (m : gset Cell) (st : t) : t :=
  {| height := height st; width := width st; moves_made := m; mines := mines st;
     safes := safes st; knowledge := knowledge st; objects := objects st |}.
Definition set_mines (m : gset Cell) (st : t) : t :=
  {| height := height st; width := width st; moves_made := moves_made st; mines := m;
     safes := safes st; knowledge := knowledge st; objects := objects st |}.
Definition set_safes (m : gset Cell) (st : t) : t :=
  {| height := height st; width := width st; moves_made := moves_made st; mines := mines st;
     safes := m; knowledge := knowledge st; objects := objects st |}.
Definition set_knowledge (k : list loc) (st : t) : t :=
  {| height := height st; width := width st; moves_made := moves_made st; mines := mines st;
     safes := safes st; knowledge := k; objects := objects st |}.
Definition set_objects (o : list Sentence.t) (st : t) : t :=
  {| height := height st; width := width st; moves_made := moves_made st; mines := mines st;
     safes := safes st; knowledge := knowledge st; objects := o |}.

(** Reading the object behind a reference. *)
Definition deref (st : t) (a : loc) : Sentence.t :=
  default (Sentence.init ∅ 0%Z) (objects st !! a).

(** Calling a mutating method on the object behind a reference. *)
Definition mutate (f : Sentence.t → Sentence.t) (st : t) (a : loc) : t :=
  set_objects (alter f a (objects st)) st.

(** [Sentence(cells, count)]: a fresh object. *)
Definition new_sentence (cs : gset Cell) (n : Z) (st : t) : loc * t :=
  (length (objects st), set_objects (objects st ++ [Sentence.init cs n]) st).

(** The value returned by [get_safes] and [get_mines]: a list or a set. *)
Inductive pyval : Type :=
  | PyList (l : list Cell)
  | PySet (s : gset Cell).

Definition pyval_elems (v : pyval) : gset Cell :=
  match v with
  | PyList l => list_to_set l
  | PySet s => s
  end.

Definition get_safes (st : t) : pyval :=
  if bool_decide (safes st ≠ ∅) then PySet (safes st) else PyList [].

Definition get_mines (st : t) : pyval :=
  if bool_decide (mines st ≠ ∅) then PySet (mines st) else PyList [].

Definition mark_mine (cell : Cell) (st : t) : t :=
  let st := set_mines ({[cell]} ∪ mines st) st in
  foldl (mutate (Sentence.mark_mine cell)) st (knowledge st).

Definition mark_safe (cell : Cell) (st : t) : t :=
  let st := set_safes ({[cell]} ∪ safes st) st in
  foldl (mutate (Sentence.mark_safe cell)) st (knowledge st).

(** [for c in cs: self.mark_mine(c)] and [for c in cs: self.mark_safe(c)] *)
Definition mark_mines (cs : gset Cell) (st : t) : t :=
  foldl (λ st c, mark_mine c st) st (elements cs).
Definition mark_safes (cs : gset Cell) (st : t) : t :=
  foldl (λ st c, mark_safe c st) st (elements cs).

(** [sentence in unique_knowledge]: identity or [__eq__] with some element. *)
Definition contains (st : t) (l : list loc) (a : loc) : bool :=
  existsb (λ b, bool_decide (b = a) || Sentence.eq (deref st b) (deref st a)) l.

Definition clean_up (st : t) : t :=
  let unique_knowledge :=
    foldl (λ unique a, if contains st unique a then unique else unique ++ [a])
          [] (knowledge st) in
  set_knowledge unique_knowledge st.

Definition nearby_cells (cell : Cell) (count : Z) (st : t) : gset Cell * Z :=
  foldl (λ acc i,
    foldl (λ '(cells, count) j,
      if bool_decide ((i, j) = cell) then (cells, count)
      else
        let cells :=
          if bool_decide (0 ≤ i < height st)%Z && bool_decide (0 ≤ j < width st)%Z
             && bool_decide ((i, j) ∉ safes st) && bool_decide ((i, j) ∉ mines st)
          then {[(i, j)]} ∪ cells else cells in
        let count :=
          if bool_decide ((i, j) ∈ mines st) then (count - 1)%Z else count in
        (cells, count))
    acc (range (cell.2 - 1) (cell.2 + 2)))
  (∅, count) (range (cell.1 - 1) (cell.1 + 2)).

(** The body shared by the two branches of [make_inferences], once
    [set_difference] and the count of the derived sentence are computed. *)
Definition resolve (set_difference : gset Cell) (eq_counts : bool) (diff_count : Z)
    (st : t) : t :=
  if bool_decide (set_difference ≠ ∅) then
    if eq_counts then mark_safes set_difference st
    else if bool_decide (Z.of_nat (size set_difference) = diff_count)
    then mark_mines set_difference st
    else
      let '(new_new_sentence, st) := new_sentence set_difference diff_count st in
      set_knowledge (knowledge st ++ [new_new_sentence]) st
  else st.

(** One iteration of the loop of [make_inferences]. *)
Definition infer_step (new : loc) (st : t) (a : loc) : t :=
  let st := clean_up st in
  let sentence := deref st a in
  let new_sentence := deref st new in
  if bool_decide (Sentence.cells new_sentence ⊆ Sentence.cells sentence) then
    resolve (Sentence.cells sentence ∖ Sentence.cells new_sentence)
            (bool_decide (Sentence.count sentence = Sentence.count new_sentence))
            (Sentence.count sentence - Sentence.count new_sentence)%Z st
  else if bool_decide (Sentence.cells sentence ⊆ Sentence.cells new_sentence) then
    resolve (Sentence.cells sentence ∖ Sentence.cells new_sentence)
            (bool_decide (Sentence.count sentence = Sentence.count new_sentence))
            (Sentence.count new_sentence - Sentence.count sentence)%Z st
  else st.

(** The loop runs over the list that [self.knowledge] names on entry;
    [clean_up] rebinds [self.knowledge] to a new list in every iteration. *)
Definition make_inferences (new : loc) (st : t) : t :=
  foldl (infer_step new) st (knowledge st).

(** One iteration of the loop of [remove_knowns]; [nk] is [new_knowledge]. *)
Definition remove_step (acc : t * list loc) (a : loc) : t * list loc :=
  let '(st, nk) := acc in
  let nk := nk ++ [a] in
  if truthy (Sentence.known_mines (deref st a)) then
    let new_mines := default ∅ (Sentence.known_mines (deref st a)) in
    (mark_mines new_mines st, removelast nk)
  else if truthy (Sentence.known_safes (deref st a)) then
    let new_safes := default ∅ (Sentence.known_safes (deref st a)) in
    (mark_safes new_safes st, removelast nk)
  else (st, nk).

Definition remove_loop (st : t) (l : list loc) : t * list loc :=
  foldl remove_step (st, []) l.

Definition remove_knowns (st : t) : t :=
  let '(st', nk) := remove_loop st (knowledge st) in
  set_knowledge nk st'.

(** [add_knowledge] up to the creation of [new_sentence]. *)
Definition observe (cell : Cell) (count : Z) (st : t) : loc * t :=
  let st := set_moves_made ({[cell]} ∪ moves_made st) st in
  let st := mark_safe cell st in
  let '(cells, new_count) := nearby_cells cell count st in
  new_sentence cells new_count st.

(** [add_knowledge] up to and including [self.knowledge.append(new_sentence)]. *)
Definition add_knowledge_appended (cell : Cell) (count : Z) (st : t) : t :=
  let '(new, st) := observe cell count st in
  let st := make_inferences new st in
  set_knowledge (knowledge st ++ [new]) st.

Definition add_knowledge (cell : Cell) (count : Z) (st : t) : t :=
  let st := add_knowledge_appended cell count st in
  let st := clean_up st in
  remove_knowns st.

(** [make_safe_move] returns a value and assigns nothing; the state is
    returned next to the result. *)
Definition make_safe_move (st : t) : option Cell * t :=
  (find (λ safe_move,
           bool_decide (safe_move ∉ moves_made st) && bool_decide (safe_move ∉ mines st))
        (elements (safes st)),
   st).

Definition moves_left_to_play (st : t) : list Cell :=
  i ← range 0 8;
  j ← range 0 8;
  if bool_decide ((i, j) ∉ moves_made st) && bool_decide ((i, j) ∉ mines st)
  then [(i, j)] else [].

(** [random.shuffle] is a parameter: any function that permutes its list. *)
Definition make_random_move (shuffle : list Cell → list Cell) (st : t)
    : option Cell * t :=
  (head (shuffle (moves_left_to_play st)), st).

(** The sentences that [knowledge] refers to, in order. *)
Definition sentences (st : t) : list Sentence.t := deref st <$> knowledge st.

End MinesweeperAI.

(** ** Sequences of public operations *)

Inductive op : Type :=
  | MarkMine (cell : Cell)
  | MarkSafe (cell : Cell)
  | AddKnowledge (cell : Cell) (count : Z)
  | MakeSafeMove
  | MakeRandomMove (shuffle : list Cell → list Cell).

Definition step (st : MinesweeperAI.t) (o : op) : MinesweeperAI.t :=
  match o with
  | MarkMine cell => MinesweeperAI.mark_mine cell st
  | MarkSafe cell => MinesweeperAI.mark_safe cell st
  | AddKnowledge cell count => MinesweeperAI.add_knowledge cell count st
  | MakeSafeMove => (MinesweeperAI.make_safe_move st).2
  | MakeRandomMove shuffle => (MinesweeperAI.make_random_move shuffle st).2
  end.

Definition run (ops : list op) (st : MinesweeperAI.t) : MinesweeperAI.t :=
  foldl step st ops.

(** ** Predicates used in the statements *)

(** The sentence's count lies between zero and the number of its cells. *)
Definition count_in_range (s : Sentence.t) : Prop :=
  (0 ≤ Sentence.count s ≤ Z.of_nat (size (Sentence.cells s)))%Z.

(** A sentence is resolved when its count is zero or equals the number of
    its cells. *)
Definition resolved (s : Sentence.t) : Prop :=
  Sentence.count s = 0%Z ∨ Sentence.count s = Z.of_nat (size (Sentence.cells s)).

(** The cell is a mine of the board. *)
Definition is_mine (b : Minesweeper.t) (c : Cell) : Prop :=
  Minesweeper.mine_in_bounds b c = true.

#[global] Instance is_mine_dec (b : Minesweeper.t) (c : Cell) : Decision (is_mine b c).
Proof. unfold is_mine. apply _. Defined.

(** An operation agrees with the board: a cell marked as a mine is one, a
    cell marked safe is not, and a revealed cell is not a mine and comes
    with the number of mines around it. *)
Definition consistent (b : Minesweeper.t) (o : op) : Prop :=
  match o with
  | MarkMine cell => is_mine b cell
  | MarkSafe cell => ¬ is_mine b cell
  | AddKnowledge cell count =>
      ¬ is_mine b cell ∧ count = Minesweeper.nearby_mines b cell
  | MakeSafeMove | MakeRandomMove _ => True
  end.

(** The sentence states a fact of the board: its count is the number of
    its cells that are mines. *)
Definition true_of (b : Minesweeper.t) (s : Sentence.t) : Prop :=
  Sentence.count s = Z.of_nat (size (filter (is_mine b) (Sentence.cells s))).

(** Everything the agent has recorded is a fact of the board. *)
Record sound (b : Minesweeper.t) (st : MinesweeperAI.t) : Prop := {
  sound_height : MinesweeperAI.height st = Minesweeper.height b;
  sound_width : MinesweeperAI.width st = Minesweeper.width b;
  sound_mines : ∀ c, c ∈ MinesweeperAI.mines st → is_mine b c;
  sound_safes : ∀ c, c ∈ MinesweeperAI.safes st → ¬ is_mine b c;
  sound_objects : Forall (true_of b) (MinesweeperAI.objects st)
}.

(** The three sets of the second state contain those of the first. *)
Record grows (st st' : MinesweeperAI.t) : Prop := {
  grows_safes : MinesweeperAI.safes st ⊆ MinesweeperAI.safes st';
  grows_mines : MinesweeperAI.mines st ⊆ MinesweeperAI.mines st';
  grows_moves : MinesweeperAI.moves_made st ⊆ MinesweeperAI.moves_made st'
}.

(** Keeping the first occurrence of every value, in order; [seen] holds the
    values already kept. *)
Fixpoint first_occurrences (seen l : list Sentence.t) : list Sentence.t :=
  match l with
  | [] => []
  | s :: l =>
      if bool_decide (s ∈ seen) then first_occurrences seen l
      else s :: first_occurrences (seen ++ [s]) l
  end.

(** ** Definitions used by the proofs *)

Import MinesweeperAI.

(** The object store after [f] is called through every reference of [l]. *)
Definition alter_all (f : Sentence.t → Sentence.t) (l : list loc)
    (o : list Sentence.t) : list Sentence.t :=
  foldl (λ o a, alter f a o) o l.

(** A cell the agent may still play safely. *)
Definition safe_candidate (st : MinesweeperAI.t) (c : Cell) : Prop :=
  c ∈ safes st ∧ (c ∉ moves_made st) ∧ (c ∉ mines st).

(** No sentence left in [knowledge] is resolved. *)
Definition resolved_are_eliminated (st : MinesweeperAI.t) : Prop :=
  ∀ s, s ∈ sentences st → ¬ resolved s.

(** The cells that the two nested loops of [nearby_cells] and of
    [nearby_mines] visit, in order. *)
Definition neighbourhood (cell : Cell) : list Cell :=
  i ← range (cell.1 - 1) (cell.1 + 2);
  j ← range (cell.2 - 1) (cell.2 + 2);
  [(i, j)].

(** The body of the inner loop of [nearby_cells]. *)
Definition cells_step (st : MinesweeperAI.t) (cell : Cell)
    (acc : gset Cell * Z) (c : Cell) : gset Cell * Z :=
  let '(cells, count) := acc in
  if bool_decide (c = cell) then (cells, count)
  else
    (if bool_decide (0 ≤ c.1 < height st)%Z && bool_decide (0 ≤ c.2 < width st)%Z
        && bool_decide (c ∉ safes st) && bool_decide (c ∉ mines st)
     then {[c]} ∪ cells else cells,
     if bool_decide (c ∈ mines st) then (count - 1)%Z else count).

(** The body of the inner loop of [nearby_mines]. *)
Definition mines_step (b : Minesweeper.t) (cell : Cell) (count : Z) (c : Cell) : Z :=
  if bool_decide (c = cell) then count
  else if Minesweeper.mine_in_bounds b c then (count + 1)%Z else count.

(** ** Inputs used as examples *)

(** A 2 x 3 board with its one mine at [(0,1)]. *)
Definition board_2x3 : Minesweeper.t :=
  {| Minesweeper.height := 2; Minesweeper.width := 3;
     Minesweeper.board := [[false; true; false]; [false; false; false]] |}.

(** Revealing [(0,0)] and then [(1,1)] on that board. *)
Definition reveal_two : list op :=
  [AddKnowledge (0, 0)%Z 1; AddKnowledge (1, 1)%Z 1].

(** A 1 x 4 board with its one mine at [(0,3)]. *)
Definition board_1x4 : Minesweeper.t :=
  {| Minesweeper.height := 1; Minesweeper.width := 4;
     Minesweeper.board := [[false; false; false; true]] |}.

(** Revealing [(0,0)] on that board. *)
Definition reveal_one : list op := [AddKnowledge (0, 0)%Z 0].

(** ** Neighbours, frames and the board's constructor *)

(** [c] is one of the up to eight cells around [cell]. *)
Definition adjacent (cell c : Cell) : Prop :=
  c ≠ cell ∧ (cell.1 - 1 ≤ c.1 ≤ cell.1 + 1)%Z ∧ (cell.2 - 1 ≤ c.2 ≤ cell.2 + 1)%Z.

#[global] Instance adjacent_dec (cell c : Cell) : Decision (adjacent cell c).
Proof. unfold adjacent. apply _. Defined.

(** The cells around [cell], as a set. *)
Definition neighbours (cell : Cell) : gset Cell :=
  list_to_set (neighbourhood cell) ∖ {[cell]}.

(** The cell lies on the agent's board. *)
Definition on_board (st : MinesweeperAI.t) (c : Cell) : Prop :=
  (0 ≤ c.1 < height st)%Z ∧ (0 ≤ c.2 < width st)%Z.

(** What no operation but the constructor and [add_knowledge]'s first line
    touches: the dimensions and [moves_made]. *)
Record frame (st st' : MinesweeperAI.t) : Prop := {
  frame_height : height st' = height st;
  frame_width : width st' = width st;
  frame_moves : moves_made st' = moves_made st
}.

(** [Minesweeper.__init__], [is_mine] and [won], on a record that adds the
    fields [mines] and [mines_found] to the board. *)
Module Game.

Record t : Type := {
  field : Minesweeper.t;
  mines : gset Cell;
  mines_found : gset Cell
}.

(** The field that the two [for] loops of [__init__] build. *)
Definition empty_board (height width : Z) : list (list bool) :=
  (λ _, (λ _, false) <$> range 0 width) <$> range 0 height.

(** [self.board[i][j] = True] *)
Definition board_set (board : list (list bool)) (i j : Z) : list (list bool) :=
  alter (λ row, <[Z.to_nat j := true]> row) (Z.to_nat i) board.

(** The body of [while len(self.mines) != mines], with [c] the pair of values
    that [random.randrange(height)] and [random.randrange(width)] return. *)
Definition place (g : t) (c : Cell) : t :=
  if negb (Minesweeper.board_get (field g) c.1 c.2) then
    {| field := {| Minesweeper.height := Minesweeper.height (field g);
                   Minesweeper.width := Minesweeper.width (field g);
                   Minesweeper.board := board_set (Minesweeper.board (field g)) c.1 c.2 |};
       mines := {[c]} ∪ mines g;
       mines_found := mines_found g |}
  else g.

(** The [while] loop, given the values drawn; [None] when the values run
    out before the loop ends. *)
Fixpoint add_mines (n : Z) (draws : list Cell) (g : t) : option t :=
  if bool_decide (Z.of_nat (size (mines g)) ≠ n) then
    match draws with
    | [] => None
    | c :: draws => add_mines n draws (place g c)
    end
  else Some g.

(** [Minesweeper(height, width, mines)] *)
Definition init (height width n : Z) (draws : list Cell) : option t :=
  add_mines n draws
    {| field := {| Minesweeper.height := height; Minesweeper.width := width;
                   Minesweeper.board := empty_board height width |};
       mines := ∅;
       mines_found := ∅ |}.

(** [l[i]] in Python: negative indices count from the end, and an index out
    of range raises [IndexError] ([None]). *)
Definition py_index {A} (l : list A) (i : Z) : option A :=
  if bool_decide (0 ≤ i)%Z then l !! Z.to_nat i
  else if bool_decide (- Z.of_nat (length l) ≤ i)%Z
       then l !! Z.to_nat (Z.of_nat (length l) + i)
       else None.

Definition is_mine (g : t) (cell : Cell) : option bool :=
  row ← py_index (Minesweeper.board (field g)) cell.1;
  py_index row cell.2.

Definition won (g : t) : bool := bool_decide (mines_found g = mines g).

(** The values drawn are in the ranges of the two [randrange] calls. *)
Definition in_range (height width : Z) (c : Cell) : Prop :=
  (0 ≤ c.1 < height)%Z ∧ (0 ≤ c.2 < width)%Z.

End Game.

(** The game has a field of [h] rows of [w] cells that marks exactly the
    cells of [mines], and no mine found yet. *)
Record game_ok (h w : Z) (g : Game.t) : Prop := {
  ok_height : Minesweeper.height (Game.field g) = h;
  ok_width : Minesweeper.width (Game.field g) = w;
  ok_rows : length (Minesweeper.board (Game.field g)) = Z.to_nat h;
  ok_cols : Forall (λ row, length row = Z.to_nat w) (Minesweeper.board (Game.field g));
  ok_mines : ∀ c, is_mine (Game.field g) c ↔ c ∈ Game.mines g;
  ok_found : Game.mines_found g = ∅
}.

(** The game on [board_2x3], as the constructor builds it from the draw
    [(0,1)]. *)
Definition game_2x3 : Game.t :=
  {| Game.field := board_2x3; Game.mines := {[(0, 1)%Z]}; Game.mines_found := ∅ |}.

(** Every reference in [knowledge] names an object of the store. *)
Definition refs_valid (st : MinesweeperAI.t) : Prop :=
  ∀ a, a ∈ knowledge st → a < length (objects st).

(** From [st] to [st'] the [knowledge] list is the same, the three sets have
    only grown, and the sentences of [knowledge] have only lost cells, each
    lost cell being in [safes] or [mines] by then. *)
Record tracks (st st' : MinesweeperAI.t) : Prop := {
  tracks_knowledge : knowledge st' = knowledge st;
  tracks_grows : grows st st';
  tracks_shrink : ∀ a, a ∈ knowledge st →
    Sentence.cells (deref st' a) ⊆ Sentence.cells (deref st a);
  tracks_cells : ∀ a, a ∈ knowledge st →
    Sentence.cells (deref st a) ⊆ Sentence.cells (deref st' a) ∪ safes st' ∪ mines st'
}.

(** From [st] to [st'] the [knowledge] list is the same, its sentences have
    gained no cell, and no cell that one of them still holds has been
    marked: such a cell is in [mines], or in [safes], at [st'] only if it was
    already there at [st]. *)
Record spares (st st' : MinesweeperAI.t) : Prop := {
  spares_knowledge : knowledge st' = knowledge st;
  spares_cells : ∀ a, a ∈ knowledge st →
    Sentence.cells (deref st' a) ⊆ Sentence.cells (deref st a);
  spares_mines : ∀ a c, a ∈ knowledge st → c ∈ Sentence.cells (deref st' a) →
    c ∈ mines st' → c ∈ mines st;
  spares_safes : ∀ a c, a ∈ knowledge st → c ∈ Sentence.cells (deref st' a) →
    c ∈ safes st' → c ∈ safes st
}.

(** Settles a decidable proposition about closed terms by evaluation. *)
Ltac decide_by_evaluation := apply (bool_decide_unpack _); vm_compute; exact I.

(** * Proofs *)

(** ** Sentences *)

Lemma Sentence_eq_true (s o : Sentence.t) : Sentence.eq s o = true ↔ s = o.
Proof.
  unfold Sentence.eq. rewrite andb_true_iff, !bool_decide_eq_true.
  destruct s, o; simpl. split; [intros [-> ->]; done | by intros [= -> ->]].
Qed.

Lemma Sentence_mark_mine_idemp (c : Cell) (s : Sentence.t) :
  Sentence.mark_mine c (Sentence.mark_mine c s) = Sentence.mark_mine c s.
Proof.
  unfold Sentence.mark_mine. destruct (decide (c ∈ Sentence.cells s)) as [Hin|Hin].
  - rewrite (bool_decide_eq_true_2 _ Hin); simpl.
    rewrite bool_decide_eq_false_2; [done|].
    rewrite elem_of_difference, elem_of_singleton. tauto.
  - by rewrite !(bool_decide_eq_false_2 _ Hin).
Qed.

Lemma Sentence_mark_safe_idemp (c : Cell) (s : Sentence.t) :
  Sentence.mark_safe c (Sentence.mark_safe c s) = Sentence.mark_safe c s.
Proof.
  unfold Sentence.mark_safe. destruct (decide (c ∈ Sentence.cells s)) as [Hin|Hin].
  - rewrite (bool_decide_eq_true_2 _ Hin); simpl.
    rewrite bool_decide_eq_false_2; [done|].
    rewrite elem_of_difference, elem_of_singleton. tauto.
  - by rewrite !(bool_decide_eq_false_2 _ Hin).
Qed.

Lemma truthy_known_mines (s : Sentence.t) :
  truthy (Sentence.known_mines s) = true ↔
  Sentence.cells s ≠ ∅ ∧ Z.of_nat (size (Sentence.cells s)) = Sentence.count s.
Proof.
  unfold Sentence.known_mines. case_bool_decide; simpl.
  - rewrite bool_decide_eq_true. tauto.
  - split; [done | tauto].
Qed.

Lemma truthy_known_safes (s : Sentence.t) :
  truthy (Sentence.known_safes s) = true ↔
  Sentence.cells s ≠ ∅ ∧ Sentence.count s = 0%Z.
Proof.
  unfold Sentence.known_safes. case_bool_decide; simpl.
  - rewrite bool_decide_eq_true. tauto.
  - split; [done | tauto].
Qed.

(** ** The object store under a method called through every reference of a list *)

Lemma foldl_mutate (f : Sentence.t → Sentence.t) (l : list loc) (st : MinesweeperAI.t) :
  foldl (mutate f) st l = set_objects (alter_all f l (objects st)) st.
Proof.
  revert st. induction l as [|a l IH]; intros st; simpl.
  - by destruct st.
  - rewrite IH. by destruct st.
Qed.

Lemma alter_all_Forall (P : Sentence.t → Prop) f l (o : list Sentence.t) :
  (∀ s, P s → P (f s)) → Forall P o → Forall P (alter_all f l o).
Proof.
  intros Hf. revert o. induction l as [|a l IH]; intros o Ho; simpl; [done|].
  apply IH. rewrite Forall_lookup in Ho |- *. intros i s Hs.
  destruct (decide (a = i)) as [->|Hne].
  - rewrite list_lookup_alter_eq in Hs.
    destruct (o !! i) as [s0|] eqn:E; simplify_eq/=. eauto.
  - rewrite list_lookup_alter_ne in Hs by done. eauto.
Qed.

Lemma alter_all_cons f a l (o : list Sentence.t) :
  alter_all f (a :: l) o = alter_all f l (alter f a o).
Proof. reflexivity. Qed.

Lemma alter_all_lookup f l (o : list Sentence.t) (i : nat) :
  (∀ s, f (f s) = f s) →
  alter_all f l o !! i = (if bool_decide (i ∈ l) then f else id) <$> o !! i.
Proof.
  intros Hf. revert o. induction l as [|a l IH]; intros o.
  - rewrite bool_decide_eq_false_2 by apply not_elem_of_nil.
    simpl. by destruct (o !! i).
  - rewrite alter_all_cons, IH. destruct (decide (a = i)) as [->|Hne].
    + rewrite list_lookup_alter_eq, (bool_decide_eq_true_2 (i ∈ i :: l)) by left.
      destruct (o !! i); simpl; [|done]. case_bool_decide; simpl; by rewrite ?Hf.
    + rewrite list_lookup_alter_ne by done.
      destruct (o !! i); simpl; [|done].
      rewrite (bool_decide_ext (i ∈ a :: l) (i ∈ l)); [done|].
      rewrite elem_of_cons. naive_solver.
Qed.

Lemma alter_all_idemp f l (o : list Sentence.t) :
  (∀ s, f (f s) = f s) → alter_all f l (alter_all f l o) = alter_all f l o.
Proof.
  intros Hf. apply list_eq; intros i. rewrite !alter_all_lookup by done.
  destruct (o !! i); simpl; [|done]. case_bool_decide; simpl; by rewrite ?Hf.
Qed.

Lemma mark_mine_unfold (c : Cell) (st : MinesweeperAI.t) :
  mark_mine c st =
  mk (height st) (width st) (moves_made st) ({[c]} ∪ mines st) (safes st) (knowledge st)
     (alter_all (Sentence.mark_mine c) (knowledge st) (objects st)).
Proof. unfold mark_mine. by rewrite foldl_mutate. Qed.

Lemma mark_safe_unfold (c : Cell) (st : MinesweeperAI.t) :
  mark_safe c st =
  mk (height st) (width st) (moves_made st) (mines st) ({[c]} ∪ safes st) (knowledge st)
     (alter_all (Sentence.mark_safe c) (knowledge st) (objects st)).
Proof. unfold mark_safe. by rewrite foldl_mutate. Qed.

(** The object behind a reference of [knowledge], after a mark. *)
Lemma deref_alter_all f (st : MinesweeperAI.t) (a : loc) :
  (∀ s, f (f s) = f s) → f (Sentence.init ∅ 0) = Sentence.init ∅ 0 →
  a ∈ knowledge st →
  default (Sentence.init ∅ 0) (alter_all f (knowledge st) (objects st) !! a)
  = f (deref st a).
Proof.
  intros Hf Hd Ha. rewrite alter_all_lookup by done.
  rewrite (bool_decide_eq_true_2 _ Ha). unfold deref.
  destruct (objects st !! a) as [s|] eqn:E; unfold loc in *; rewrite E; simpl; [done|].
  by rewrite Hd.
Qed.

Lemma deref_mark_mine_in (c : Cell) (st : MinesweeperAI.t) (a : loc) :
  a ∈ knowledge st → deref (mark_mine c st) a = Sentence.mark_mine c (deref st a).
Proof.
  intros Ha. rewrite mark_mine_unfold. unfold deref at 1; simpl.
  apply deref_alter_all; [apply Sentence_mark_mine_idemp|done|done].
Qed.

Lemma deref_mark_safe_in (c : Cell) (st : MinesweeperAI.t) (a : loc) :
  a ∈ knowledge st → deref (mark_safe c st) a = Sentence.mark_safe c (deref st a).
Proof.
  intros Ha. rewrite mark_safe_unfold. unfold deref at 1; simpl.
  apply deref_alter_all; [apply Sentence_mark_safe_idemp|done|done].
Qed.

(** C8: marking the same cell twice in a row, as safe or as a mine, leaves
    the agent in the state that marking it once does. *)
Theorem mark_twice_same_state (c : Cell) (st : MinesweeperAI.t) :
  mark_safe c (mark_safe c st) = mark_safe c st ∧
  mark_mine c (mark_mine c st) = mark_mine c st.
Proof.
  split.
  - rewrite !mark_safe_unfold; simpl. f_equal.
    + set_solver.
    + apply alter_all_idemp, Sentence_mark_safe_idemp.
  - rewrite !mark_mine_unfold; simpl. f_equal.
    + set_solver.
    + apply alter_all_idemp, Sentence_mark_mine_idemp.
Qed.

(** ** The order in which a loop visits a set does not matter

    Python leaves the order of [for c in cells] open; the embedding visits
    [elements cells].  Marking is insensitive to that order. *)

Lemma Sentence_mark_mine_comm (c1 c2 : Cell) (s : Sentence.t) :
  Sentence.mark_mine c1 (Sentence.mark_mine c2 s)
  = Sentence.mark_mine c2 (Sentence.mark_mine c1 s).
Proof.
  destruct (decide (c1 = c2)) as [->|Hne]; [done|].
  assert (E12 : bool_decide (c1 ∈ Sentence.cells s ∖ {[c2]})
                = bool_decide (c1 ∈ Sentence.cells s)).
  { apply bool_decide_ext. rewrite elem_of_difference, elem_of_singleton. naive_solver. }
  assert (E21 : bool_decide (c2 ∈ Sentence.cells s ∖ {[c1]})
                = bool_decide (c2 ∈ Sentence.cells s)).
  { apply bool_decide_ext. rewrite elem_of_difference, elem_of_singleton. naive_solver. }
  unfold Sentence.mark_mine.
  destruct (bool_decide (c1 ∈ Sentence.cells s)) eqn:B1,
           (bool_decide (c2 ∈ Sentence.cells s)) eqn:B2;
    simpl; rewrite ?E12, ?E21, ?B1, ?B2; try done.
  f_equal. apply set_eq. intros x. rewrite !elem_of_difference. tauto.
Qed.

Lemma Sentence_mark_safe_comm (c1 c2 : Cell) (s : Sentence.t) :
  Sentence.mark_safe c1 (Sentence.mark_safe c2 s)
  = Sentence.mark_safe c2 (Sentence.mark_safe c1 s).
Proof.
  destruct (decide (c1 = c2)) as [->|Hne]; [done|].
  assert (E12 : bool_decide (c1 ∈ Sentence.cells s ∖ {[c2]})
                = bool_decide (c1 ∈ Sentence.cells s)).
  { apply bool_decide_ext. rewrite elem_of_difference, elem_of_singleton. naive_solver. }
  assert (E21 : bool_decide (c2 ∈ Sentence.cells s ∖ {[c1]})
                = bool_decide (c2 ∈ Sentence.cells s)).
  { apply bool_decide_ext. rewrite elem_of_difference, elem_of_singleton. naive_solver. }
  unfold Sentence.mark_safe.
  destruct (bool_decide (c1 ∈ Sentence.cells s)) eqn:B1,
           (bool_decide (c2 ∈ Sentence.cells s)) eqn:B2;
    simpl; rewrite ?E12, ?E21, ?B1, ?B2; try done.
  f_equal. apply set_eq. intros x. rewrite !elem_of_difference. tauto.
Qed.

Lemma alter_all_comm f g l (o : list Sentence.t) :
  (∀ s, f (f s) = f s) → (∀ s, g (g s) = g s) → (∀ s, f (g s) = g (f s)) →
  alter_all f l (alter_all g l o) = alter_all g l (alter_all f l o).
Proof.
  intros Hf Hg Hfg. apply list_eq; intros i. rewrite !alter_all_lookup by done.
  destruct (o !! i); simpl; [|done]. case_bool_decide; simpl; by rewrite ?Hfg.
Qed.

Lemma mark_mine_comm (c1 c2 : Cell) (st : MinesweeperAI.t) :
  mark_mine c1 (mark_mine c2 st) = mark_mine c2 (mark_mine c1 st).
Proof.
  rewrite !mark_mine_unfold; simpl. f_equal.
  - apply set_eq. intros x. rewrite !elem_of_union. tauto.
  - apply alter_all_comm; auto using Sentence_mark_mine_idemp, Sentence_mark_mine_comm.
Qed.

Lemma mark_safe_comm (c1 c2 : Cell) (st : MinesweeperAI.t) :
  mark_safe c1 (mark_safe c2 st) = mark_safe c2 (mark_safe c1 st).
Proof.
  rewrite !mark_safe_unfold; simpl. f_equal.
  - apply set_eq. intros x. rewrite !elem_of_union. tauto.
  - apply alter_all_comm; auto using Sentence_mark_safe_idemp, Sentence_mark_safe_comm.
Qed.

Lemma foldl_comm_perm {A} (f : MinesweeperAI.t → A → MinesweeperAI.t) (l1 l2 : list A) :
  (∀ st x y, f (f st x) y = f (f st y) x) →
  l1 ≡ₚ l2 → ∀ st, foldl f st l1 = foldl f st l2.
Proof.
  intros Hf Hp. induction Hp as [|x l1 l2 _ IH|x y l|l1 l2 l3 _ IH1 _ IH2]; intros st; simpl.
  - done.
  - apply IH.
  - by rewrite Hf.
  - by rewrite IH1, IH2.
Qed.

Lemma mark_mines_any_order (cs : gset Cell) (l : list Cell) (st : MinesweeperAI.t) :
  l ≡ₚ elements cs → foldl (λ st c, mark_mine c st) st l = mark_mines cs st.
Proof.
  intros Hp. unfold mark_mines. apply foldl_comm_perm; [|done].
  intros st' x y. apply mark_mine_comm.
Qed.

Lemma mark_safes_any_order (cs : gset Cell) (l : list Cell) (st : MinesweeperAI.t) :
  l ≡ₚ elements cs → foldl (λ st c, mark_safe c st) st l = mark_safes cs st.
Proof.
  intros Hp. unfold mark_safes. apply foldl_comm_perm; [|done].
  intros st' x y. apply mark_safe_comm.
Qed.

(** ** Moves and accessors *)

(** C9: [make_safe_move] returns a cell of [safes] that is neither in
    [moves_made] nor in [mines] whenever there is one, returns [None]
    exactly when there is none, and leaves the agent's state as it was. *)
Theorem make_safe_move_spec (st : MinesweeperAI.t) :
  (∀ c, (make_safe_move st).1 = Some c → safe_candidate st c) ∧
  ((∃ c, safe_candidate st c) → ∃ c, (make_safe_move st).1 = Some c) ∧
  ((make_safe_move st).1 = None ↔ ¬ (∃ c, safe_candidate st c)) ∧
  (make_safe_move st).2 = st.
Proof.
  unfold make_safe_move, safe_candidate; simpl.
  assert (Hnone : find (λ m, bool_decide (m ∉ moves_made st) && bool_decide (m ∉ mines st))
                       (elements (safes st)) = None →
                  ¬ (∃ c, c ∈ safes st ∧ (c ∉ moves_made st) ∧ (c ∉ mines st))).
  { intros Hf (c & Hc & Hm & Hn).
    assert (Hin : In c (elements (safes st))).
    { by apply list_elem_of_In, elem_of_elements. }
    pose proof (find_none _ _ Hf c Hin) as Hb. simpl in Hb.
    rewrite (bool_decide_eq_true_2 _ Hm), (bool_decide_eq_true_2 _ Hn) in Hb. done. }
  assert (Hsome : ∀ c, find (λ m, bool_decide (m ∉ moves_made st) && bool_decide (m ∉ mines st))
                       (elements (safes st)) = Some c →
                  c ∈ safes st ∧ (c ∉ moves_made st) ∧ (c ∉ mines st)).
  { intros c Hf. apply find_some in Hf as [Hin Hb].
    apply andb_true_iff in Hb as [Hm Hn].
    apply bool_decide_eq_true in Hm, Hn.
    apply list_elem_of_In, elem_of_elements in Hin. done. }
  repeat split.
  - by apply Hsome.
  - by apply Hsome.
  - by apply Hsome.
  - intros Hex. destruct (find _ _) as [c|] eqn:Hf; [by exists c|].
    by destruct (Hnone eq_refl).
  - apply Hnone.
  - intros Hno. destruct (find _ _) as [c|] eqn:Hf; [|done].
    destruct Hno. exists c. by apply Hsome.
Qed.

(** C10: [get_safes] returns the empty list when [safes] is empty and the
    set [safes] otherwise, [get_mines] does the same for [mines], and in
    both cases the elements of the returned value are those of the set. *)
Theorem accessors_return_the_sets (st : MinesweeperAI.t) :
  get_safes st = (if decide (safes st = ∅) then PyList [] else PySet (safes st)) ∧
  get_mines st = (if decide (mines st = ∅) then PyList [] else PySet (mines st)) ∧
  pyval_elems (get_safes st) = safes st ∧
  pyval_elems (get_mines st) = mines st.
Proof.
  unfold get_safes, get_mines.
  destruct (decide (safes st = ∅)) as [Hs|Hs], (decide (mines st = ∅)) as [Hm|Hm];
    rewrite ?(bool_decide_eq_false_2 (safes st ≠ ∅)), ?(bool_decide_eq_true_2 (safes st ≠ ∅)),
      ?(bool_decide_eq_false_2 (mines st ≠ ∅)), ?(bool_decide_eq_true_2 (mines st ≠ ∅))
      by (done || by intros []);
    simpl; rewrite ?Hs, ?Hm; done.
Qed.

(** ** The program on concrete inputs *)

(** Second branch of [make_inferences]: when the existing sentence's cells
    are a strict subset of the new sentence's, [set_difference] is computed
    as existing minus new, which is empty, and the iteration only runs
    [clean_up]. *)
Lemma infer_step_existing_subset (new a : loc) (st : MinesweeperAI.t) :
  Sentence.cells (deref st a) ⊂ Sentence.cells (deref st new) →
  infer_step new st a = clean_up st.
Proof.
  intros [Hsub Hnsub]. unfold infer_step.
  change (deref (clean_up st)) with (deref st).
  rewrite (bool_decide_eq_false_2 _ Hnsub), (bool_decide_eq_true_2 _ Hsub).
  unfold resolve. rewrite bool_decide_eq_false_2; [done|].
  intros Hne. apply Hne. apply set_eq. intros x.
  rewrite elem_of_difference. split; [|by intros ?%not_elem_of_empty].
  intros [? ?]. exfalso. auto.
Qed.

(** C1, the program at an input where the claim fails: on a 2 x 3 board,
    after [(0,0)] is revealed with count 1 and [(1,1)] with count 1, the new
    sentence [{(0,1),(0,2),(1,0),(1,2)} = 1] strictly contains the existing
    sentence [{(0,1),(1,0)} = 1], the difference [{(0,2),(1,2)}] has count 0,
    and yet [make_inferences] marks nothing and derives nothing: both cells
    are missing from [safes] when [add_knowledge] returns. *)
Theorem new_superset_derives_nothing :
  let st0 := add_knowledge (0, 0)%Z 1 (init 2 3) in
  let new := fst (observe (1, 1)%Z 1 st0) in
  let st := snd (observe (1, 1)%Z 1 st0) in
  let st' := add_knowledge (1, 1)%Z 1 st0 in
  sentences st = [Sentence.init {[(0, 1)%Z; (1, 0)%Z]} 1] ∧
  deref st new = Sentence.init {[(0, 1)%Z; (0, 2)%Z; (1, 0)%Z; (1, 2)%Z]} 1 ∧
  Sentence.cells (deref st 0) ⊂ Sentence.cells (deref st new) ∧
  Sentence.cells (deref st new) ∖ Sentence.cells (deref st 0) = {[(0, 2)%Z; (1, 2)%Z]} ∧
  make_inferences new st = clean_up st ∧
  safes st' = {[(0, 0)%Z; (1, 1)%Z]} ∧
  mines st' = ∅ ∧
  sentences st' = [Sentence.init {[(0, 1)%Z; (1, 0)%Z]} 1;
                   Sentence.init {[(0, 1)%Z; (0, 2)%Z; (1, 0)%Z; (1, 2)%Z]} 1].
Proof.
  cbv zeta. repeat split; try (vm_compute; reflexivity).
  - decide_by_evaluation.
  - decide_by_evaluation.
Qed.

(** C3, the program at an input where the claim fails: on a 1 x 1 board the
    only cell has no neighbours, so revealing it with count 0 builds the
    sentence [{} = 0], and that sentence is still in [knowledge] when
    [add_knowledge] returns. *)
Theorem empty_sentence_is_kept :
  sentences (add_knowledge (0, 0)%Z 0 (init 1 1)) = [Sentence.init ∅ 0].
Proof. vm_compute. reflexivity. Qed.

(** C4, the program at an input where the claim fails: the agent of a 1 x 1
    board that has played its only cell has no move left on its board, but
    [make_random_move] returns some cell, and that cell is not [(0,0)]:
    it lies outside the board. *)
Theorem random_move_leaves_the_board (shuffle : list Cell → list Cell) :
  (∀ l, shuffle l ≡ₚ l) →
  let st := add_knowledge (0, 0)%Z 0 (init 1 1) in
  height st = 1%Z ∧ width st = 1%Z ∧ (0, 0)%Z ∈ moves_made st ∧
  ∃ c, fst (make_random_move shuffle st) = Some c ∧ c ≠ (0, 0)%Z.
Proof.
  intros Hperm st. do 2 (split; [vm_compute; reflexivity|]). split.
  - decide_by_evaluation.
  - unfold make_random_move; simpl.
    pose proof (Hperm (moves_left_to_play st)) as Hp.
    destruct (shuffle (moves_left_to_play st)) as [|c l] eqn:Hs.
    + apply Permutation_nil_l in Hp.
      assert (Hlen : length (moves_left_to_play st) = 63) by (vm_compute; reflexivity).
      rewrite <- Hp in Hlen. done.
    + exists c. split; [done|].
      assert (Hin : c ∈ moves_left_to_play st) by (rewrite <- Hp; left).
      assert (Hall : Forall (λ c, c ≠ (0, 0)%Z) (moves_left_to_play st)).
      { decide_by_evaluation. }
      rewrite Forall_forall in Hall. by apply Hall.
Qed.

Lemma random_move_leaves_the_board_witness :
  (∀ l : list Cell, id l ≡ₚ l) ∧
  ∃ c, fst (make_random_move id (add_knowledge (0, 0)%Z 0 (init 1 1))) = Some c
       ∧ c ≠ (0, 0)%Z.
Proof.
  assert (Hid : ∀ l : list Cell, id l ≡ₚ l) by (intros l; reflexivity).
  split; [exact Hid|]. exact (proj2 (proj2 (proj2 (random_move_leaves_the_board id Hid)))).
Defined.

(** C2 fails as stated: on a 1 x 5 board, after [(0,1)] is revealed with
    count 1 and [(0,3)] with count 0, the sentence [{(0,0),(0,2)} = 1] is
    visited before the sentence that makes [(0,2)] safe, so it is left in
    [knowledge] as [{(0,0)} = 1], resolved, with [(0,0)] not in [mines]. *)
Lemma later_marks_leave_a_resolved_sentence :
  let st := add_knowledge (0, 3)%Z 0 (add_knowledge (0, 1)%Z 1 (init 1 5)) in
  sentences st = [Sentence.init {[(0, 0)%Z]} 1] ∧
  ((0, 0)%Z ∉ mines st) ∧
  ¬ resolved_are_eliminated st.
Proof.
  cbv zeta. split; [vm_compute; reflexivity|]. split.
  - decide_by_evaluation.
  - intros Hall. apply (Hall (Sentence.init {[(0, 0)%Z]} 1)).
    + replace (sentences _) with [Sentence.init {[(0, 0)%Z]} 1]
        by (vm_compute; reflexivity).
      left.
    + right. vm_compute. reflexivity.
Qed.

(** C5 fails as stated: on a 2 x 4 board, after [(0,0)] is revealed with
    count 1, [(1,1)] with count 1 and [(0,3)] with count 0, the marks made
    by [remove_knowns] turn two different sentences into the same one, and
    both are in [knowledge] when [add_knowledge] returns. *)
Lemma equal_sentences_after_add_knowledge :
  let st := add_knowledge (0, 3)%Z 0
              (add_knowledge (1, 1)%Z 1 (add_knowledge (0, 0)%Z 1 (init 2 4))) in
  sentences st = [Sentence.init {[(0, 1)%Z; (1, 0)%Z]} 1;
                  Sentence.init {[(0, 1)%Z; (1, 0)%Z]} 1] ∧
  ¬ NoDup (sentences st).
Proof.
  cbv zeta.
  assert (Hs : sentences (add_knowledge (0, 3)%Z 0
              (add_knowledge (1, 1)%Z 1 (add_knowledge (0, 0)%Z 1 (init 2 4)))) =
     [Sentence.init {[(0, 1)%Z; (1, 0)%Z]} 1; Sentence.init {[(0, 1)%Z; (1, 0)%Z]} 1])
    by (vm_compute; reflexivity).
  split; [done|]. rewrite Hs. intros Hnd. apply NoDup_cons in Hnd as [Hnin _].
  apply Hnin. left.
Qed.

(** C6 fails as stated: nothing checks the count given to [add_knowledge];
    on a 1 x 1 board, revealing the only cell with count 1 leaves the
    sentence [{} = 1], whose count exceeds the number of its cells. *)
Lemma count_above_number_of_cells :
  let st := run [AddKnowledge (0, 0)%Z 1] (init 1 1) in
  sentences st = [Sentence.init ∅ 1] ∧ ¬ Forall count_in_range (sentences st).
Proof.
  cbv zeta.
  assert (Hs : sentences (run [AddKnowledge (0, 0)%Z 1] (init 1 1)) = [Sentence.init ∅ 1])
    by (vm_compute; reflexivity).
  split; [done|]. rewrite Hs. intros Hall. apply Forall_cons in Hall as [[_ Hle] _].
  vm_compute in Hle. by apply Hle.
Qed.

(** C7 fails as stated: marking a cell safe and then marking it as a mine
    leaves it in both [safes] and [mines]. *)
Lemma safes_and_mines_overlap :
  let st := run [MarkSafe (0, 0)%Z; MarkMine (0, 0)%Z] (init 8 8) in
  safes st ∩ mines st ≠ ∅.
Proof.
  cbv zeta. decide_by_evaluation.
Qed.

(** ** Soundness with respect to a board *)

Section board.
Context (b : Minesweeper.t).

Abbreviation M := (is_mine b).

Lemma true_of_default : true_of b (Sentence.init ∅ 0).
Proof. unfold true_of; simpl. by rewrite filter_empty_L, size_empty by apply _. Qed.

Lemma true_of_count_in_range (s : Sentence.t) : true_of b s → count_in_range s.
Proof.
  unfold true_of, count_in_range. intros ->.
  pose proof (subseteq_size (filter M (Sentence.cells s)) (Sentence.cells s)) as Hle.
  split; [lia|]. apply inj_le, Hle. intros x. rewrite elem_of_filter. tauto.
Qed.

(** A true sentence with count zero has no mine among its cells. *)
Lemma true_of_zero (s : Sentence.t) (c : Cell) :
  true_of b s → Sentence.count s = 0%Z → c ∈ Sentence.cells s → ¬ M c.
Proof.
  unfold true_of. intros Hs H0 Hc Hm.
  assert (Hsz : size (filter M (Sentence.cells s)) = 0) by lia.
  apply size_empty_inv in Hsz.
  assert (c ∈ filter M (Sentence.cells s)) as Hin by (by apply elem_of_filter).
  rewrite Hsz in Hin. by apply not_elem_of_empty in Hin.
Qed.

(** A true sentence whose count is the number of its cells has only mines. *)
Lemma true_of_full (s : Sentence.t) (c : Cell) :
  true_of b s → Z.of_nat (size (Sentence.cells s)) = Sentence.count s →
  c ∈ Sentence.cells s → M c.
Proof.
  unfold true_of. intros Hs Hfull Hc.
  assert (Heq : filter M (Sentence.cells s) = Sentence.cells s).
  { apply set_subseteq_size_eq; [|lia]. intros x. rewrite elem_of_filter. tauto. }
  rewrite <- Heq in Hc. by apply elem_of_filter in Hc as [? _].
Qed.

Lemma true_of_mark_safe (c : Cell) (s : Sentence.t) :
  ¬ M c → true_of b s → true_of b (Sentence.mark_safe c s).
Proof.
  unfold true_of, Sentence.mark_safe. intros Hc Hs.
  case_bool_decide; simpl; [|done]. rewrite Hs. do 2 f_equal.
  apply set_eq. intros x.
  rewrite !elem_of_filter, elem_of_difference, elem_of_singleton. naive_solver.
Qed.

Lemma true_of_mark_mine (c : Cell) (s : Sentence.t) :
  M c → true_of b s → true_of b (Sentence.mark_mine c s).
Proof.
  unfold true_of, Sentence.mark_mine. intros Hc Hs.
  case_bool_decide as Hin; simpl; [|done]. rewrite Hs.
  assert (Heq : filter M (Sentence.cells s ∖ {[c]}) = filter M (Sentence.cells s) ∖ {[c]}).
  { apply set_eq. intros x.
    rewrite elem_of_filter, !elem_of_difference, elem_of_filter. naive_solver. }
  rewrite Heq, size_difference, size_singleton.
  - assert (size (filter M (Sentence.cells s)) ≠ 0); [|lia].
    apply size_non_empty_iff. intros Hempty.
    apply (not_elem_of_empty (C := gset Cell) c). rewrite <- Hempty.
    by apply elem_of_filter.
  - intros x ->%elem_of_singleton. by apply elem_of_filter.
Qed.

(** The mines of a difference, when the smaller sentence lies inside the
    larger one. *)
Lemma true_of_difference (s n : Sentence.t) :
  Sentence.cells n ⊆ Sentence.cells s → true_of b s → true_of b n →
  true_of b (Sentence.init (Sentence.cells s ∖ Sentence.cells n)
                           (Sentence.count s - Sentence.count n)).
Proof.
  unfold true_of; simpl. intros Hsub -> ->.
  assert (Heq : filter M (Sentence.cells s ∖ Sentence.cells n)
                = filter M (Sentence.cells s) ∖ filter M (Sentence.cells n)).
  { apply set_eq. intros x.
    rewrite elem_of_filter, !elem_of_difference, !elem_of_filter. naive_solver. }
  assert (Hsub' : filter M (Sentence.cells n) ⊆ filter M (Sentence.cells s)).
  { intros x. rewrite !elem_of_filter. naive_solver. }
  rewrite Heq, size_difference by done.
  apply subseteq_size in Hsub'. lia.
Qed.

Lemma sound_deref (st : MinesweeperAI.t) (a : loc) :
  sound b st → true_of b (deref st a).
Proof.
  intros Hs. unfold deref. destruct (objects st !! a) as [s|] eqn:E; simpl.
  - by eapply (Forall_lookup_1 _ _ _ _ (sound_objects _ _ Hs)).
  - apply true_of_default.
Qed.

Lemma sound_set_knowledge (k : list loc) (st : MinesweeperAI.t) :
  sound b st → sound b (set_knowledge k st).
Proof. intros []. by constructor. Qed.

Lemma sound_set_moves_made (m : gset Cell) (st : MinesweeperAI.t) :
  sound b st → sound b (set_moves_made m st).
Proof. intros []. by constructor. Qed.

Lemma sound_clean_up (st : MinesweeperAI.t) : sound b st → sound b (clean_up st).
Proof. apply sound_set_knowledge. Qed.

Lemma sound_new_sentence (cs : gset Cell) (n : Z) (st : MinesweeperAI.t) :
  true_of b (Sentence.init cs n) → sound b st →
  sound b (snd (new_sentence cs n st)).
Proof.
  intros Ht []. constructor; simpl; try done.
  apply Forall_app. split; [done|]. by apply Forall_singleton.
Qed.

Lemma sound_mark_mine (c : Cell) (st : MinesweeperAI.t) :
  M c → sound b st → sound b (mark_mine c st).
Proof.
  intros Hc []. rewrite mark_mine_unfold. constructor; simpl; try done.
  - intros x [->%elem_of_singleton|?]%elem_of_union; auto.
  - apply alter_all_Forall; [|done]. intros s. by apply true_of_mark_mine.
Qed.

Lemma sound_mark_safe (c : Cell) (st : MinesweeperAI.t) :
  ¬ M c → sound b st → sound b (mark_safe c st).
Proof.
  intros Hc []. rewrite mark_safe_unfold. constructor; simpl; try done.
  - intros x [->%elem_of_singleton|?]%elem_of_union; auto.
  - apply alter_all_Forall; [|done]. intros s. by apply true_of_mark_safe.
Qed.

Lemma sound_mark_mines (cs : gset Cell) (st : MinesweeperAI.t) :
  (∀ c, c ∈ cs → M c) → sound b st → sound b (mark_mines cs st).
Proof.
  unfold mark_mines. intros Hcs.
  assert (Hl : Forall M (elements cs)).
  { apply Forall_forall. intros c Hc. by apply Hcs, elem_of_elements. }
  revert st. induction Hl as [|c l Hc _ IH]; intros st Hs; simpl; [done|].
  by apply IH, sound_mark_mine.
Qed.

Lemma sound_mark_safes (cs : gset Cell) (st : MinesweeperAI.t) :
  (∀ c, c ∈ cs → ¬ M c) → sound b st → sound b (mark_safes cs st).
Proof.
  unfold mark_safes. intros Hcs.
  assert (Hl : Forall (λ c, ¬ M c) (elements cs)).
  { apply Forall_forall. intros c Hc. by apply Hcs, elem_of_elements. }
  revert st. induction Hl as [|c l Hc _ IH]; intros st Hs; simpl; [done|].
  by apply IH, sound_mark_safe.
Qed.

Lemma resolve_empty (e : bool) (d : Z) (st : MinesweeperAI.t) : resolve ∅ e d st = st.
Proof. unfold resolve. by rewrite bool_decide_eq_false_2 by (by intros []). Qed.

Lemma sound_resolve (diff : gset Cell) (e : bool) (d : Z) (st : MinesweeperAI.t) :
  true_of b (Sentence.init diff d) → (e = true → d = 0%Z) →
  sound b st → sound b (resolve diff e d st).
Proof.
  intros Ht He Hs. unfold resolve. case_bool_decide; [|done].
  destruct e.
  - apply sound_mark_safes; [|done]. intros c.
    apply (true_of_zero _ c Ht). simpl. auto.
  - case_bool_decide as Hfull.
    + apply sound_mark_mines; [|done]. intros c.
      by apply (true_of_full _ c Ht).
    + simpl. apply sound_set_knowledge.
      by apply (sound_new_sentence diff d st).
Qed.

Lemma sound_infer_step (new a : loc) (st : MinesweeperAI.t) :
  sound b st → sound b (infer_step new st a).
Proof.
  intros Hs%sound_clean_up. unfold infer_step.
  case_bool_decide as Hsub.
  - apply sound_resolve; [|by intros ?%bool_decide_eq_true; lia|done].
    by apply true_of_difference; [|apply sound_deref..].
  - case_bool_decide as Hsub'; [|done].
    replace (Sentence.cells _ ∖ Sentence.cells _) with (∅ : gset Cell).
    + by rewrite resolve_empty.
    + symmetry. apply set_eq. intros x.
      rewrite elem_of_difference. split; [|by intros ?%not_elem_of_empty].
      intros [? ?]. exfalso. auto.
Qed.

Lemma sound_foldl_infer_step (new : loc) (l : list loc) (st : MinesweeperAI.t) :
  sound b st → sound b (foldl (infer_step new) st l).
Proof.
  revert st. induction l as [|a l IH]; intros st Hs; simpl; [done|].
  by apply IH, sound_infer_step.
Qed.

Lemma sound_make_inferences (new : loc) (st : MinesweeperAI.t) :
  sound b st → sound b (make_inferences new st).
Proof. apply sound_foldl_infer_step. Qed.

Lemma sound_remove_step (st : MinesweeperAI.t) (nk : list loc) (a : loc) :
  sound b st → sound b (fst (remove_step (st, nk) a)).
Proof.
  intros Hs. unfold remove_step.
  pose proof (sound_deref st a Hs) as Ht.
  destruct (truthy (Sentence.known_mines (deref st a))) eqn:Hm; simpl.
  - apply truthy_known_mines in Hm as [_ Hfull].
    apply sound_mark_mines; [|done]. intros c.
    unfold Sentence.known_mines. rewrite (bool_decide_eq_true_2 _ Hfull); simpl.
    by apply true_of_full.
  - destruct (truthy (Sentence.known_safes (deref st a))) eqn:Hz; simpl; [|done].
    apply truthy_known_safes in Hz as [_ Hzero].
    apply sound_mark_safes; [|done]. intros c.
    unfold Sentence.known_safes. rewrite (bool_decide_eq_true_2 _ Hzero); simpl.
    by apply true_of_zero.
Qed.

Lemma sound_foldl_remove_step (l : list loc) (acc : MinesweeperAI.t * list loc) :
  sound b (fst acc) → sound b (fst (foldl remove_step acc l)).
Proof.
  revert acc. induction l as [|a l IH]; intros [st nk] Hs; simpl; [done|].
  by apply IH, sound_remove_step.
Qed.

Lemma sound_remove_knowns (st : MinesweeperAI.t) :
  sound b st → sound b (remove_knowns st).
Proof.
  intros Hs. unfold remove_knowns, remove_loop.
  pose proof (sound_foldl_remove_step (knowledge st) (st, []) Hs) as Hs'.
  destruct (foldl remove_step (st, []) (knowledge st)) as [st' nk].
  by apply sound_set_knowledge.
Qed.

End board.

(** ** The neighbourhood loops *)

Lemma foldl_ext {A B} (f g : A → B → A) (l : list B) (a : A) :
  (∀ a x, f a x = g a x) → foldl f a l = foldl g a l.
Proof.
  intros Hfg. revert a. induction l as [|x l IH]; intros a; simpl; [done|].
  by rewrite Hfg, IH.
Qed.

Lemma foldl_nested {A} (g : A → Cell → A) (l1 l2 : list Z) (acc : A) :
  foldl (λ acc i, foldl (λ acc j, g acc (i, j)) acc l2) acc l1
  = foldl g acc (i ← l1; j ← l2; [(i, j)]).
Proof.
  revert acc. induction l1 as [|i l1 IH]; intros acc; [done|].
  rewrite bind_cons, foldl_app, <- IH. simpl. f_equal.
  clear. revert acc. induction l2 as [|j l2 IH]; intros acc; [done|].
  rewrite bind_cons, foldl_app, <- IH. done.
Qed.

Lemma nearby_cells_foldl (cell : Cell) (count : Z) (st : MinesweeperAI.t) :
  nearby_cells cell count st = foldl (cells_step st cell) (∅, count) (neighbourhood cell).
Proof.
  unfold neighbourhood. rewrite <- (foldl_nested (cells_step st cell)).
  unfold nearby_cells. apply foldl_ext. intros acc i. apply foldl_ext.
  intros [cells n] j. reflexivity.
Qed.

Lemma nearby_mines_foldl (b : Minesweeper.t) (cell : Cell) :
  Minesweeper.nearby_mines b cell = foldl (mines_step b cell) 0%Z (neighbourhood cell).
Proof.
  unfold neighbourhood. rewrite <- (foldl_nested (mines_step b cell)). reflexivity.
Qed.

Lemma NoDup_neighbourhood (cell : Cell) : NoDup (neighbourhood cell).
Proof.
  unfold neighbourhood, range. apply NoDup_bind; [| |apply NoDup_seqZ].
  - intros i1 i2 c _ _ (j1 & Hc1 & _)%list_elem_of_bind (j2 & Hc2 & _)%list_elem_of_bind.
    apply list_elem_of_singleton in Hc1, Hc2. congruence.
  - intros i _. apply NoDup_bind; [| |apply NoDup_seqZ].
    + intros j1 j2 c _ _ Hc1%list_elem_of_singleton Hc2%list_elem_of_singleton. congruence.
    + intros j _. apply NoDup_singleton.
Qed.

Section observation.
Context (b : Minesweeper.t) (st : MinesweeperAI.t) (cell : Cell).
Hypothesis Hsound : sound b st.

Abbreviation M := (is_mine b).

Lemma is_mine_in_bounds (c : Cell) :
  M c → (0 ≤ c.1 < height st)%Z ∧ (0 ≤ c.2 < width st)%Z.
Proof.
  unfold is_mine, Minesweeper.mine_in_bounds.
  rewrite (sound_height _ _ Hsound), (sound_width _ _ Hsound).
  intros [[H1%bool_decide_eq_true H2%bool_decide_eq_true]%andb_true_iff _]%andb_true_iff.
  done.
Qed.

(** What one iteration adds to the agent's count, to the mines among the
    collected cells and to the board's count cancels out. *)
Lemma step_balance (cells : gset Cell) (count m : Z) (c : Cell) :
  c ∉ cells →
  let acc' := cells_step st cell (cells, count) c in
  (snd acc' - Z.of_nat (size (filter M (fst acc'))) + mines_step b cell m c
   = count - Z.of_nat (size (filter M cells)) + m)%Z
  ∧ fst acc' ⊆ {[c]} ∪ cells.
Proof.
  intros Hc. unfold cells_step, mines_step.
  case_bool_decide as Hcell; simpl; [split; [done|set_solver]|].
  destruct (decide (c ∈ mines st)) as [Hmine|Hmine].
  - rewrite (bool_decide_eq_true_2 _ Hmine).
    rewrite (bool_decide_eq_false_2 (c ∉ mines st)) by tauto.
    rewrite andb_false_r.
    pose proof (sound_mines _ _ Hsound c Hmine) as HM. unfold is_mine in HM.
    rewrite HM. split; [lia|set_solver].
  - rewrite (bool_decide_eq_false_2 _ Hmine).
    rewrite (bool_decide_eq_true_2 (c ∉ mines st)) by done.
    rewrite andb_true_r.
    destruct (decide (M c)) as [HM|HM].
    + pose proof (is_mine_in_bounds c HM) as [Hi Hj].
      assert (Hsafe : c ∉ safes st).
      { intros Hin. by apply (sound_safes _ _ Hsound c Hin). }
      rewrite !bool_decide_eq_true_2 by done. simpl.
      unfold is_mine in HM. rewrite HM. split; [|done].
      assert (Heq : filter M ({[c]} ∪ cells) = {[c]} ∪ filter M cells).
      { apply set_eq. intros x.
        rewrite elem_of_filter, !elem_of_union, elem_of_filter, elem_of_singleton.
        unfold is_mine. naive_solver. }
      rewrite Heq, size_union, size_singleton; [lia|].
      intros x ->%elem_of_singleton [_ ?]%elem_of_filter. done.
    + assert (Hb : Minesweeper.mine_in_bounds b c = false).
      { unfold is_mine in HM. by destruct (Minesweeper.mine_in_bounds b c). }
      rewrite Hb.
      destruct (_ && _ && _); simpl; (split; [|set_solver]); [|done].
      assert (Heq : filter M ({[c]} ∪ cells) = filter M cells).
      { apply set_eq. intros x.
        rewrite !elem_of_filter, !elem_of_union, elem_of_singleton. naive_solver. }
      by rewrite Heq.
Qed.

Lemma foldl_balance (l : list Cell) (cells : gset Cell) (count m : Z) :
  NoDup l → (∀ c, c ∈ l → c ∉ cells) →
  let acc' := foldl (cells_step st cell) (cells, count) l in
  (snd acc' - Z.of_nat (size (filter M (fst acc'))) + foldl (mines_step b cell) m l
   = count - Z.of_nat (size (filter M cells)) + m)%Z.
Proof.
  intros Hnd. revert cells count m.
  induction Hnd as [|c l Hc Hnd IH]; intros cells count m Hfresh;
    cbv zeta; cbn [foldl]; [done|].
  destruct (step_balance cells count m c) as [Hbal Hsub]; [apply Hfresh; left|].
  destruct (cells_step st cell (cells, count) c) as [cells' count'] eqn:Hstep.
  cbn [fst snd] in Hbal, Hsub. cbv zeta in IH. rewrite IH; [done|].
  intros x Hx Hin. apply Hsub in Hin.
  apply elem_of_union in Hin as [->%elem_of_singleton|Hin]; [done|].
  apply (Hfresh x); [by right|done].
Qed.

(** The sentence built from an observation of the board is true of it. *)
Lemma true_of_nearby_cells :
  let r := nearby_cells cell (Minesweeper.nearby_mines b cell) st in
  true_of b (Sentence.init (fst r) (snd r)).
Proof.
  cbv zeta. rewrite nearby_cells_foldl. unfold true_of; simpl.
  pose proof (foldl_balance (neighbourhood cell) ∅ (Minesweeper.nearby_mines b cell) 0
    (NoDup_neighbourhood cell)) as Hbal.
  simpl in Hbal. rewrite <- nearby_mines_foldl in Hbal.
  rewrite filter_empty_L, size_empty in Hbal by apply _.
  specialize (Hbal (λ c _, not_elem_of_empty c)). lia.
Qed.

End observation.

(** ** Runs that agree with a board *)

Section runs.
Context (b : Minesweeper.t).

Lemma sound_init :
  sound b (init (Minesweeper.height b) (Minesweeper.width b)).
Proof.
  constructor; simpl; done.
Qed.

Lemma sound_observe (cell : Cell) (st : MinesweeperAI.t) :
  ¬ is_mine b cell → sound b st →
  sound b (snd (observe cell (Minesweeper.nearby_mines b cell) st)).
Proof.
  intros Hcell Hs. unfold observe.
  set (st2 := mark_safe cell (set_moves_made _ st)).
  assert (Hs2 : sound b st2).
  { by apply sound_mark_safe, sound_set_moves_made. }
  pose proof (true_of_nearby_cells b st2 cell Hs2) as Ht. cbv zeta in Ht.
  destruct (nearby_cells cell (Minesweeper.nearby_mines b cell) st2) as [cells n].
  by apply sound_new_sentence.
Qed.

Lemma sound_add_knowledge (cell : Cell) (st : MinesweeperAI.t) :
  ¬ is_mine b cell → sound b st →
  sound b (add_knowledge cell (Minesweeper.nearby_mines b cell) st).
Proof.
  intros Hcell Hs. unfold add_knowledge, add_knowledge_appended.
  pose proof (sound_observe cell st Hcell Hs) as Ho.
  destruct (observe cell (Minesweeper.nearby_mines b cell) st) as [new st1].
  simpl in Ho.
  by apply sound_remove_knowns, sound_clean_up, sound_set_knowledge,
    sound_make_inferences.
Qed.

Lemma sound_step (o : op) (st : MinesweeperAI.t) :
  consistent b o → sound b st → sound b (step st o).
Proof.
  destruct o as [c|c|c n| |shuffle]; simpl; intros Hc Hs.
  - by apply sound_mark_mine.
  - by apply sound_mark_safe.
  - destruct Hc as [Hc ->]. by apply sound_add_knowledge.
  - done.
  - done.
Qed.

Lemma sound_run (ops : list op) (st : MinesweeperAI.t) :
  Forall (consistent b) ops → sound b st → sound b (run ops st).
Proof.
  unfold run. intros Hops. revert st.
  induction Hops as [|o ops Ho _ IH]; intros st Hs; simpl; [done|].
  by apply IH, sound_step.
Qed.

Lemma sound_sentences (st : MinesweeperAI.t) :
  sound b st → Forall (true_of b) (sentences st).
Proof.
  intros Hs. unfold sentences. apply Forall_fmap, Forall_forall.
  intros a _. by apply sound_deref.
Qed.

End runs.

(** C6, as the program has it: when every operation agrees with one board
    (a cell marked as a mine is a mine of the board, a cell marked safe is
    not, and a revealed cell is not a mine and is given with the board's
    count of mines around it), every sentence in [knowledge] after the
    operations has a count between zero and the number of its cells. *)
Theorem counts_in_range_on_consistent_runs (b : Minesweeper.t) (ops : list op) :
  Forall (consistent b) ops →
  Forall count_in_range
    (sentences (run ops (init (Minesweeper.height b) (Minesweeper.width b)))).
Proof.
  intros Hops.
  eapply Forall_impl; [|apply (true_of_count_in_range b)].
  apply sound_sentences, sound_run; [done|apply sound_init].
Qed.

(** ** The three sets only grow *)

Lemma grows_refl (st : MinesweeperAI.t) : grows st st.
Proof. by constructor. Qed.

Lemma grows_trans (st1 st2 st3 : MinesweeperAI.t) :
  grows st1 st2 → grows st2 st3 → grows st1 st3.
Proof. intros [] []. constructor; by etrans. Qed.

Lemma grows_set_knowledge (k : list loc) (st : MinesweeperAI.t) :
  grows st (set_knowledge k st).
Proof. by constructor. Qed.

Lemma grows_mark_mine (c : Cell) (st : MinesweeperAI.t) : grows st (mark_mine c st).
Proof.
  rewrite mark_mine_unfold. constructor; simpl; try done. apply union_subseteq_r.
Qed.

Lemma grows_mark_safe (c : Cell) (st : MinesweeperAI.t) : grows st (mark_safe c st).
Proof.
  rewrite mark_safe_unfold. constructor; simpl; try done. apply union_subseteq_r.
Qed.

Lemma grows_foldl {A} (f : MinesweeperAI.t → A → MinesweeperAI.t) (l : list A)
    (st : MinesweeperAI.t) :
  (∀ st x, grows st (f st x)) → grows st (foldl f st l).
Proof.
  intros Hf. revert st. induction l as [|x l IH]; intros st; simpl.
  - apply grows_refl.
  - eapply grows_trans; [apply Hf|apply IH].
Qed.

Lemma grows_mark_mines (cs : gset Cell) (st : MinesweeperAI.t) :
  grows st (mark_mines cs st).
Proof. apply grows_foldl. intros. apply grows_mark_mine. Qed.

Lemma grows_mark_safes (cs : gset Cell) (st : MinesweeperAI.t) :
  grows st (mark_safes cs st).
Proof. apply grows_foldl. intros. apply grows_mark_safe. Qed.

Lemma grows_resolve (diff : gset Cell) (e : bool) (d : Z) (st : MinesweeperAI.t) :
  grows st (resolve diff e d st).
Proof.
  unfold resolve. case_bool_decide; [|apply grows_refl].
  destruct e; [apply grows_mark_safes|].
  case_bool_decide; [apply grows_mark_mines|]. by constructor.
Qed.

Lemma grows_infer_step (new : loc) (st : MinesweeperAI.t) (a : loc) :
  grows st (infer_step new st a).
Proof.
  unfold infer_step. apply (grows_trans _ (clean_up st)); [by constructor|].
  repeat case_bool_decide; try apply grows_resolve. apply grows_refl.
Qed.

Lemma grows_make_inferences (new : loc) (st : MinesweeperAI.t) :
  grows st (make_inferences new st).
Proof. apply grows_foldl. intros. apply grows_infer_step. Qed.

Lemma grows_remove_step (st : MinesweeperAI.t) (nk : list loc) (a : loc) :
  grows st (fst (remove_step (st, nk) a)).
Proof.
  unfold remove_step.
  destruct (truthy (Sentence.known_mines _)); simpl; [apply grows_mark_mines|].
  destruct (truthy (Sentence.known_safes _)); simpl; [apply grows_mark_safes|].
  apply grows_refl.
Qed.

Lemma grows_foldl_remove_step (l : list loc) (acc : MinesweeperAI.t * list loc) :
  grows (fst acc) (fst (foldl remove_step acc l)).
Proof.
  revert acc. induction l as [|a l IH]; intros [st nk]; cbn [foldl fst];
    [apply grows_refl|].
  eapply grows_trans; [apply (grows_remove_step st nk a)|]. apply IH.
Qed.

Lemma grows_remove_knowns (st : MinesweeperAI.t) : grows st (remove_knowns st).
Proof.
  unfold remove_knowns, remove_loop.
  pose proof (grows_foldl_remove_step (knowledge st) (st, [])) as Hg.
  destruct (foldl remove_step (st, []) (knowledge st)) as [st' nk].
  eapply grows_trans; [apply Hg|]. by constructor.
Qed.

Lemma grows_observe (cell : Cell) (count : Z) (st : MinesweeperAI.t) :
  grows st (snd (observe cell count st)).
Proof.
  unfold observe.
  set (st1 := set_moves_made _ st). set (st2 := mark_safe cell st1).
  assert (H1 : grows st st1).
  { constructor; simpl; try done. apply union_subseteq_r. }
  assert (H2 : grows st1 st2) by apply grows_mark_safe.
  destruct (nearby_cells cell count st2) as [cells n].
  eapply grows_trans; [apply H1|]. eapply grows_trans; [apply H2|]. by constructor.
Qed.

Lemma grows_add_knowledge (cell : Cell) (count : Z) (st : MinesweeperAI.t) :
  grows st (add_knowledge cell count st).
Proof.
  unfold add_knowledge, add_knowledge_appended.
  pose proof (grows_observe cell count st) as Ho.
  destruct (observe cell count st) as [new st1]. simpl in Ho.
  eapply grows_trans; [apply Ho|].
  eapply grows_trans; [apply (grows_make_inferences new)|].
  eapply grows_trans; [|apply grows_remove_knowns]. by constructor.
Qed.

Lemma grows_step (st : MinesweeperAI.t) (o : op) : grows st (step st o).
Proof.
  destruct o; simpl.
  - apply grows_mark_mine.
  - apply grows_mark_safe.
  - apply grows_add_knowledge.
  - apply grows_refl.
  - apply grows_refl.
Qed.

Lemma grows_run (ops : list op) (st : MinesweeperAI.t) : grows st (run ops st).
Proof. apply grows_foldl, grows_step. Qed.

(** C7, as the program has it: over every sequence of operations the sets
    [safes], [mines] and [moves_made] only grow; and when every operation
    of a run from a fresh agent agrees with one board, [safes] and [mines]
    have no cell in common after it. *)
Theorem sets_grow_and_stay_disjoint (b : Minesweeper.t) (ops : list op) :
  (∀ st, grows st (run ops st)) ∧
  (Forall (consistent b) ops →
   let st := run ops (init (Minesweeper.height b) (Minesweeper.width b)) in
   safes st ∩ mines st = ∅).
Proof.
  split; [intros st; apply grows_run|].
  intros Hops st.
  assert (Hs : sound b st) by (apply sound_run; [done|apply sound_init]).
  apply set_eq. intros c. rewrite elem_of_intersection.
  split; [|by intros ?%not_elem_of_empty].
  intros [Hsafe Hmine]. exfalso.
  by apply (sound_safes _ _ Hs c Hsafe), (sound_mines _ _ Hs c Hmine).
Qed.

(** ** Deduplication *)

Lemma contains_spec (st : MinesweeperAI.t) (u : list loc) (a : loc) :
  contains st u a = true ↔ deref st a ∈ deref st <$> u.
Proof.
  unfold contains. rewrite existsb_exists, list_elem_of_fmap. split.
  - intros (x & Hin%list_elem_of_In & Hx). exists x. split; [|done].
    apply orb_true_iff in Hx as [->%bool_decide_eq_true | Heq%Sentence_eq_true]; done.
  - intros (x & Heq & Hin). exists x. split; [by apply list_elem_of_In|].
    apply orb_true_iff. right. by apply Sentence_eq_true.
Qed.

(** The loop of [clean_up], started with [u] as [unique_knowledge]. *)
Lemma clean_up_loop (st : MinesweeperAI.t) (l u : list loc) :
  deref st <$> foldl (λ unique a, if contains st unique a then unique else unique ++ [a]) u l
  = (deref st <$> u) ++ first_occurrences (deref st <$> u) (deref st <$> l).
Proof.
  revert u. induction l as [|a l IH]; intros u; simpl.
  - by rewrite app_nil_r.
  - rewrite IH. destruct (contains st u a) eqn:Hc.
    + apply contains_spec in Hc. by rewrite (bool_decide_eq_true_2 _ Hc).
    + assert (Hn : deref st a ∉ deref st <$> u).
      { intros Hin%contains_spec. congruence. }
      rewrite (bool_decide_eq_false_2 _ Hn), fmap_app. simpl.
      by rewrite <- app_assoc.
Qed.

Lemma first_occurrences_NoDup (seen l : list Sentence.t) :
  NoDup seen → NoDup (seen ++ first_occurrences seen l).
Proof.
  revert seen. induction l as [|s l IH]; intros seen Hnd; simpl.
  - by rewrite app_nil_r.
  - case_bool_decide as Hin; [by apply IH|].
    rewrite cons_middle, app_assoc. apply IH.
    apply NoDup_app. split; [done|]. split; [|apply NoDup_singleton].
    intros x Hx ->%list_elem_of_singleton. done.
Qed.

Lemma first_occurrences_sublist (seen l : list Sentence.t) :
  first_occurrences seen l `sublist_of` l.
Proof.
  revert seen. induction l as [|s l IH]; intros seen; simpl; [done|].
  case_bool_decide.
  - apply sublist_cons, IH.
  - apply sublist_skip, IH.
Qed.

Lemma first_occurrences_elem_of (seen l : list Sentence.t) (s : Sentence.t) :
  s ∈ l → s ∈ seen ++ first_occurrences seen l.
Proof.
  revert seen. induction l as [|x l IH]; intros seen Hin; simpl.
  - by apply elem_of_nil in Hin.
  - apply elem_of_cons in Hin as [->|Hin].
    + case_bool_decide as Hx.
      * apply elem_of_app. by left.
      * apply elem_of_app. right. left.
    + case_bool_decide as Hx; [by apply IH|].
      rewrite cons_middle, app_assoc. by apply IH.
Qed.

Lemma clean_up_sentences (st : MinesweeperAI.t) :
  sentences (clean_up st) = first_occurrences [] (sentences st).
Proof.
  unfold sentences, clean_up; simpl.
  change (deref (set_knowledge _ st)) with (deref st).
  by rewrite clean_up_loop.
Qed.

(** C5, as the program has it: [add_knowledge] removes duplicates before
    it removes known sentences.  Right after its [clean_up] no two equal
    sentences are in [knowledge]: the sentences kept are the first
    occurrences, in their order, and every sentence that was there is still
    there.  What [add_knowledge] returns is [remove_knowns] of that state,
    with no deduplication after it. *)
Theorem deduplicated_before_removing_knowns (cell : Cell) (count : Z)
    (st : MinesweeperAI.t) :
  let st1 := add_knowledge_appended cell count st in
  let st2 := clean_up st1 in
  add_knowledge cell count st = remove_knowns st2 ∧
  NoDup (sentences st2) ∧
  sentences st2 = first_occurrences [] (sentences st1) ∧
  sentences st2 `sublist_of` sentences st1 ∧
  (∀ s, s ∈ sentences st1 ↔ s ∈ sentences st2).
Proof.
  intros st1 st2. unfold st2. rewrite clean_up_sentences.
  split; [done|]. split; [apply (first_occurrences_NoDup []), NoDup_nil_2|].
  split; [done|]. split; [apply first_occurrences_sublist|].
  intros s. split.
  - apply (first_occurrences_elem_of []).
  - intros Hin. eapply elem_of_sublist; [done|apply first_occurrences_sublist].
Qed.

(** ** The pass of [remove_knowns] *)

Lemma clean_up_loop_NoDup (st : MinesweeperAI.t) (l u : list loc) :
  NoDup u →
  NoDup (foldl (λ unique a, if contains st unique a then unique else unique ++ [a]) u l).
Proof.
  revert u. induction l as [|a l IH]; intros u Hu; simpl; [done|].
  apply IH. destruct (contains st u a) eqn:Hc; [done|].
  apply NoDup_app. split; [done|]. split; [|apply NoDup_singleton].
  intros x Hx ->%list_elem_of_singleton.
  assert (contains st u a = true); [|congruence].
  unfold contains. apply existsb_exists. exists a.
  split; [by apply list_elem_of_In|]. by rewrite bool_decide_eq_true_2.
Qed.

Lemma clean_up_NoDup (st : MinesweeperAI.t) : NoDup (knowledge (clean_up st)).
Proof. apply clean_up_loop_NoDup, NoDup_nil_2. Qed.

(** The three ways an iteration of [remove_knowns] can go. *)
Lemma remove_step_cases (st : MinesweeperAI.t) (nk : list loc) (a : loc) :
  let s := deref st a in
  (Sentence.cells s ≠ ∅ ∧ Z.of_nat (size (Sentence.cells s)) = Sentence.count s ∧
   remove_step (st, nk) a = (mark_mines (Sentence.cells s) st, nk)) ∨
  (Sentence.cells s ≠ ∅ ∧ Sentence.count s = 0%Z ∧
   remove_step (st, nk) a = (mark_safes (Sentence.cells s) st, nk)) ∨
  (¬ (Sentence.cells s ≠ ∅ ∧ resolved s) ∧
   remove_step (st, nk) a = (st, nk ++ [a])).
Proof.
  intros s. unfold remove_step. fold s.
  destruct (truthy (Sentence.known_mines s)) eqn:Hm.
  - left. apply truthy_known_mines in Hm as [Hne Hfull].
    split; [done|]. split; [done|].
    unfold Sentence.known_mines. rewrite (bool_decide_eq_true_2 _ Hfull); simpl.
    by rewrite removelast_last.
  - destruct (truthy (Sentence.known_safes s)) eqn:Hz.
    + right; left. apply truthy_known_safes in Hz as [Hne Hzero].
      split; [done|]. split; [done|].
      unfold Sentence.known_safes. rewrite (bool_decide_eq_true_2 _ Hzero); simpl.
      by rewrite removelast_last.
    + right; right. split; [|done]. intros [Hne [Hzero|Hfull]].
      * assert (truthy (Sentence.known_safes s) = true); [|congruence].
        by apply truthy_known_safes.
      * assert (truthy (Sentence.known_mines s) = true); [|congruence].
        by apply truthy_known_mines.
Qed.

(** [new_knowledge] only gains references of the list being visited. *)
Lemma remove_fold_kept (l : list loc) (st : MinesweeperAI.t) (nk : list loc) :
  ∃ kept, snd (foldl remove_step (st, nk) l) = nk ++ kept ∧ ∀ x, x ∈ kept → x ∈ l.
Proof.
  revert st nk. induction l as [|a l IH]; intros st nk; cbn [foldl].
  - exists []. split; [by rewrite app_nil_r|]. by intros x ?%elem_of_nil.
  - destruct (remove_step_cases st nk a) as [(_ & _ & ->)|[(_ & _ & ->)|(_ & ->)]].
    + destruct (IH (mark_mines (Sentence.cells (deref st a)) st) nk) as (kept & -> & Hk).
      exists kept. split; [done|]. intros x Hx. right. by apply Hk.
    + destruct (IH (mark_safes (Sentence.cells (deref st a)) st) nk) as (kept & -> & Hk).
      exists kept. split; [done|]. intros x Hx. right. by apply Hk.
    + destruct (IH st (nk ++ [a])) as (kept & -> & Hk).
      exists (a :: kept). split; [by rewrite <- app_assoc|].
      intros x [->|Hx]%elem_of_cons; [left|right; by apply Hk].
Qed.

Lemma mark_mines_elem_of (cs : gset Cell) (st : MinesweeperAI.t) (c : Cell) :
  c ∈ cs → c ∈ mines (mark_mines cs st).
Proof.
  unfold mark_mines. intros Hc%elem_of_elements. revert st.
  induction (elements cs) as [|x l IH]; intros st; [by apply elem_of_nil in Hc|].
  simpl. apply elem_of_cons in Hc as [->|Hc]; [|by apply IH].
  apply (grows_mines _ _ (grows_foldl (λ st c, mark_mine c st) l (mark_mine x st)
    (λ st c, grows_mark_mine c st))).
  rewrite mark_mine_unfold; simpl. apply elem_of_union_l. by apply elem_of_singleton.
Qed.

Lemma mark_safes_elem_of (cs : gset Cell) (st : MinesweeperAI.t) (c : Cell) :
  c ∈ cs → c ∈ safes (mark_safes cs st).
Proof.
  unfold mark_safes. intros Hc%elem_of_elements. revert st.
  induction (elements cs) as [|x l IH]; intros st; [by apply elem_of_nil in Hc|].
  simpl. apply elem_of_cons in Hc as [->|Hc]; [|by apply IH].
  apply (grows_safes _ _ (grows_foldl (λ st c, mark_safe c st) l (mark_safe x st)
    (λ st c, grows_mark_safe c st))).
  rewrite mark_safe_unfold; simpl. apply elem_of_union_l. by apply elem_of_singleton.
Qed.

Lemma size_zero_empty (X : gset Cell) : size X = 0 → X = ∅.
Proof. intros H. apply leibniz_equiv. by apply size_empty_inv. Qed.

(** The pass over [pre ++ a :: post], seen from the visit of [a]. *)
Lemma remove_knowns_visit (st : MinesweeperAI.t) (pre post : list loc) (a : loc) :
  knowledge st = pre ++ a :: post → a ∉ pre → a ∉ post →
  let s := deref (fst (remove_loop st pre)) a in
  let final := remove_knowns st in
  (Sentence.cells s ≠ ∅ → Z.of_nat (size (Sentence.cells s)) = Sentence.count s →
   Sentence.cells s ⊆ mines final ∧ a ∉ knowledge final) ∧
  (Sentence.cells s ≠ ∅ → Sentence.count s = 0%Z →
   Sentence.cells s ⊆ safes final ∧ a ∉ knowledge final) ∧
  (¬ (Sentence.cells s ≠ ∅ ∧ resolved s) → a ∈ knowledge final).
Proof.
  intros Hk Hpre Hpost s final.
  unfold final, remove_knowns, remove_loop. rewrite Hk, foldl_app. cbn [foldl].
  unfold s, remove_loop. clear s final.
  destruct (remove_fold_kept pre st []) as (kp & Hkp & Hsub).
  destruct (foldl remove_step (st, []) pre) as [stp nkp]. simpl in Hkp. subst nkp.
  cbn [fst]. set (s := deref stp a).
  assert (Hout : ∀ kept : list loc, (∀ x, x ∈ kept → x ∈ post) → a ∉ kp ++ kept).
  { intros kept Hkept [Hin|Hin]%elem_of_app; [by apply Hpre, Hsub|by apply Hpost, Hkept]. }
  destruct (remove_step_cases stp kp a) as [(Hne & Hfull & ->)|[(Hne & Hzero & ->)|(Hno & ->)]];
    fold s.
  - pose proof (grows_foldl_remove_step post (mark_mines (Sentence.cells s) stp, kp)) as Hg.
    destruct (remove_fold_kept post (mark_mines (Sentence.cells s) stp) kp) as (kept & Hkept & Hin).
    destruct (foldl remove_step _ post) as [st' nk]. simpl in *. subst nk.
    split; [|split].
    + intros _ _. split; [|by apply Hout].
      intros c Hc. apply (grows_mines _ _ Hg). by apply mark_mines_elem_of.
    + intros _ Hzero. exfalso. apply Hne, size_zero_empty.
      unfold s in *. lia.
    + intros Hno. destruct Hno. split; [done|]. by right.
  - pose proof (grows_foldl_remove_step post (mark_safes (Sentence.cells s) stp, kp)) as Hg.
    destruct (remove_fold_kept post (mark_safes (Sentence.cells s) stp) kp) as (kept & Hkept & Hin).
    destruct (foldl remove_step _ post) as [st' nk]. simpl in *. subst nk.
    split; [|split].
    + intros _ Hfull. exfalso. apply Hne, size_zero_empty.
      unfold s in *. lia.
    + intros _ _. split; [|by apply Hout].
      intros c Hc. apply (grows_safes _ _ Hg). by apply mark_safes_elem_of.
    + intros Hno. destruct Hno. split; [done|]. by left.
  - destruct (remove_fold_kept post stp (kp ++ [a])) as (kept & Hkept & Hin).
    destruct (foldl remove_step _ post) as [st' nk]. simpl in *. subst nk.
    split; [|split].
    + intros Hne Hfull. destruct Hno. split; [done|]. by right.
    + intros Hne Hzero. destruct Hno. split; [done|]. by left.
    + intros _. apply elem_of_app. left. apply elem_of_app. right. left.
Qed.

(** ** The pass marks no cell that a sentence still holds *)

Lemma spares_refl (st : MinesweeperAI.t) : spares st st.
Proof. by constructor. Qed.

Lemma spares_trans (st1 st2 st3 : MinesweeperAI.t) :
  spares st1 st2 → spares st2 st3 → spares st1 st3.
Proof.
  intros [K1 C1 M1 S1] [K2 C2 M2 S2]. constructor.
  - congruence.
  - intros a Ha x Hx. apply (C1 a Ha). apply (C2 a); [by rewrite K1|done].
  - intros a c Ha Hc Hm. apply (M1 a c Ha).
    + apply (C2 a); [by rewrite K1|done].
    + apply (M2 a c); [by rewrite K1|done..].
  - intros a c Ha Hc Hs. apply (S1 a c Ha).
    + apply (C2 a); [by rewrite K1|done].
    + apply (S2 a c); [by rewrite K1|done..].
Qed.

Lemma spares_mark_mine (c : Cell) (st : MinesweeperAI.t) : spares st (mark_mine c st).
Proof.
  constructor.
  - by rewrite mark_mine_unfold.
  - intros a Ha x. rewrite (deref_mark_mine_in c st a Ha). unfold Sentence.mark_mine.
    case_bool_decide; simpl; [|done]. rewrite elem_of_difference. tauto.
  - intros a x Ha Hx Hm. rewrite (deref_mark_mine_in c st a Ha) in Hx.
    rewrite mark_mine_unfold in Hm; simpl in Hm.
    apply elem_of_union in Hm as [Hm|Hm]; [|done].
    apply elem_of_singleton in Hm as ->. exfalso.
    unfold Sentence.mark_mine in Hx. case_bool_decide; simpl in Hx; [|done].
    apply elem_of_difference in Hx as [_ Hx]. apply Hx. by apply elem_of_singleton.
  - intros a x Ha Hx Hs. by rewrite mark_mine_unfold in Hs.
Qed.

Lemma spares_mark_safe (c : Cell) (st : MinesweeperAI.t) : spares st (mark_safe c st).
Proof.
  constructor.
  - by rewrite mark_safe_unfold.
  - intros a Ha x. rewrite (deref_mark_safe_in c st a Ha). unfold Sentence.mark_safe.
    case_bool_decide; simpl; [|done]. rewrite elem_of_difference. tauto.
  - intros a x Ha Hx Hm. by rewrite mark_safe_unfold in Hm.
  - intros a x Ha Hx Hs. rewrite (deref_mark_safe_in c st a Ha) in Hx.
    rewrite mark_safe_unfold in Hs; simpl in Hs.
    apply elem_of_union in Hs as [Hs|Hs]; [|done].
    apply elem_of_singleton in Hs as ->. exfalso.
    unfold Sentence.mark_safe in Hx. case_bool_decide; simpl in Hx; [|done].
    apply elem_of_difference in Hx as [_ Hx]. apply Hx. by apply elem_of_singleton.
Qed.

Lemma spares_foldl {A} (f : MinesweeperAI.t → A → MinesweeperAI.t) (l : list A)
    (st : MinesweeperAI.t) :
  (∀ st x, spares st (f st x)) → spares st (foldl f st l).
Proof.
  intros Hf. revert st. induction l as [|x l IH]; intros st; simpl.
  - apply spares_refl.
  - eapply spares_trans; [apply Hf|apply IH].
Qed.

Lemma spares_remove_step (st : MinesweeperAI.t) (nk : list loc) (a : loc) :
  spares st (fst (remove_step (st, nk) a)).
Proof.
  unfold remove_step.
  destruct (truthy (Sentence.known_mines _)); simpl.
  { apply spares_foldl. intros. apply spares_mark_mine. }
  destruct (truthy (Sentence.known_safes _)); simpl.
  { apply spares_foldl. intros. apply spares_mark_safe. }
  apply spares_refl.
Qed.

Lemma spares_foldl_remove_step (l : list loc) (acc : MinesweeperAI.t * list loc) :
  spares (fst acc) (fst (foldl remove_step acc l)).
Proof.
  revert acc. induction l as [|a l IH]; intros [st nk]; cbn [foldl fst];
    [apply spares_refl|].
  eapply spares_trans; [apply (spares_remove_step st nk a)|]. apply IH.
Qed.

(** A cell that a sentence of [knowledge] holds after the pass was held by
    it before, and is in [mines] or in [safes] only if it was before. *)
Lemma remove_knowns_spares (st : MinesweeperAI.t) (a : loc) (c : Cell) :
  a ∈ knowledge st → c ∈ Sentence.cells (deref (remove_knowns st) a) →
  c ∈ Sentence.cells (deref st a) ∧
  (c ∈ mines (remove_knowns st) → c ∈ mines st) ∧
  (c ∈ safes (remove_knowns st) → c ∈ safes st).
Proof.
  intros Ha. unfold remove_knowns, remove_loop.
  pose proof (spares_foldl_remove_step (knowledge st) (st, [])) as Hs.
  destruct (foldl remove_step (st, []) (knowledge st)) as [st' nk].
  cbn [fst] in Hs. destruct Hs as [_ HC HM HS].
  change (deref (set_knowledge nk st') a) with (deref st' a).
  change (mines (set_knowledge nk st')) with (mines st').
  change (safes (set_knowledge nk st')) with (safes st').
  intros Hc. split; [by apply (HC a)|]. split; intros H; [by apply (HM a)|by apply (HS a)].
Qed.

(** C2, as the program has it: [add_knowledge] ends with one pass of
    [remove_knowns] over the deduplicated [knowledge], in order.  A sentence
    that, when the pass reaches it, has cells and a count equal to their
    number has all these cells in [mines] and is out of [knowledge] when
    [add_knowledge] returns; one that has cells and count zero has all these
    cells in [safes] and is out of [knowledge]; a sentence that is not
    resolved when the pass reaches it is in [knowledge] when [add_knowledge]
    returns, whatever the marks made later in the pass do to it, and the
    pass has marked none of the cells it then holds: each of them was a cell
    of it when the pass began, and is in [mines], or in [safes], only if it
    was there when the pass began.  The pass is not repeated. *)
Theorem removal_is_a_single_pass (cell : Cell) (count : Z) (st : MinesweeperAI.t)
    (pre post : list loc) (a : loc) :
  let st1 := clean_up (add_knowledge_appended cell count st) in
  let final := add_knowledge cell count st in
  knowledge st1 = pre ++ a :: post →
  let s := deref (fst (remove_loop st1 pre)) a in
  (Sentence.cells s ≠ ∅ → Z.of_nat (size (Sentence.cells s)) = Sentence.count s →
   Sentence.cells s ⊆ mines final ∧ a ∉ knowledge final) ∧
  (Sentence.cells s ≠ ∅ → Sentence.count s = 0%Z →
   Sentence.cells s ⊆ safes final ∧ a ∉ knowledge final) ∧
  (¬ resolved s →
   a ∈ knowledge final ∧
   ∀ c, c ∈ Sentence.cells (deref final a) →
     c ∈ Sentence.cells (deref st1 a) ∧
     (c ∈ mines final → c ∈ mines st1) ∧
     (c ∈ safes final → c ∈ safes st1)).
Proof.
  intros st1 final Hk.
  pose proof (clean_up_NoDup (add_knowledge_appended cell count st)) as Hnd.
  fold st1 in Hnd. rewrite Hk in Hnd.
  apply NoDup_app in Hnd as (_ & Hpre & Hpost%NoDup_cons).
  destruct (remove_knowns_visit st1 pre post a Hk) as (Hm & Hz & Hkeep).
  - intros Hin. apply (Hpre a Hin). left.
  - by destruct Hpost.
  - split; [exact Hm|]. split; [exact Hz|].
    intros Hno. split.
    + apply Hkeep. intros [_ Hres]. by apply Hno.
    + intros c Hc. apply (remove_knowns_spares st1 a c); [|exact Hc].
      rewrite Hk. apply elem_of_app. right. left.
Qed.

(** ** The theorems at concrete inputs *)

Lemma reveal_two_consistent : Forall (consistent board_2x3) reveal_two.
Proof.
  unfold reveal_two. repeat constructor; try (vm_compute; reflexivity);
    intros Hm; vm_compute in Hm; discriminate.
Defined.

Lemma counts_in_range_on_consistent_runs_witness :
  Forall (consistent board_2x3) reveal_two ∧
  Forall count_in_range (sentences (run reveal_two (init 2 3))).
Proof.
  split; [exact reveal_two_consistent|].
  exact (counts_in_range_on_consistent_runs board_2x3 reveal_two reveal_two_consistent).
Defined.

Lemma sets_grow_and_stay_disjoint_witness :
  Forall (consistent board_2x3) reveal_two ∧
  grows (init 2 3) (run reveal_two (init 2 3)) ∧
  safes (run reveal_two (init 2 3)) ∩ mines (run reveal_two (init 2 3)) = ∅.
Proof.
  split; [exact reveal_two_consistent|]. split.
  - exact (proj1 (sets_grow_and_stay_disjoint board_2x3 reveal_two) (init 2 3)).
  - exact (proj2 (sets_grow_and_stay_disjoint board_2x3 reveal_two) reveal_two_consistent).
Defined.

Lemma removal_is_a_single_pass_witness :
  let st := add_knowledge (0, 1)%Z 1 (init 1 5) in
  let st1 := clean_up (add_knowledge_appended (0, 3)%Z 0 st) in
  let final := add_knowledge (0, 3)%Z 0 st in
  (knowledge st1 = [] ++ 0 :: [1] ∧
   ¬ resolved (deref (fst (remove_loop st1 [])) 0) ∧
   0 ∈ knowledge final ∧
   ∀ c, c ∈ Sentence.cells (deref final 0) →
     c ∈ Sentence.cells (deref st1 0) ∧
     (c ∈ mines final → c ∈ mines st1) ∧
     (c ∈ safes final → c ∈ safes st1)) ∧
  (knowledge st1 = [0] ++ 1 :: [] ∧
   let s := deref (fst (remove_loop st1 [0])) 1 in
   Sentence.cells s ≠ ∅ ∧ Sentence.count s = 0%Z ∧
   Sentence.cells s ⊆ safes final ∧ 1 ∉ knowledge final).
Proof.
  intros st st1 final.
  assert (Hk0 : knowledge st1 = [] ++ 0 :: [1]) by (vm_compute; reflexivity).
  assert (Hk1 : knowledge st1 = [0] ++ 1 :: []) by (vm_compute; reflexivity).
  assert (Hno : ¬ resolved (deref (fst (remove_loop st1 [])) 0)).
  { intros [H|H]; vm_compute in H; discriminate. }
  assert (Hne : Sentence.cells (deref (fst (remove_loop st1 [0])) 1) ≠ ∅).
  { decide_by_evaluation. }
  assert (Hz : Sentence.count (deref (fst (remove_loop st1 [0])) 1) = 0%Z).
  { vm_compute. reflexivity. }
  split.
  - split; [exact Hk0|]. split; [exact Hno|].
    exact (proj2 (proj2 (removal_is_a_single_pass (0, 3)%Z 0 st [] [1] 0 Hk0)) Hno).
  - split; [exact Hk1|]. split; [exact Hne|]. split; [exact Hz|].
    exact (proj1 (proj2 (removal_is_a_single_pass (0, 3)%Z 0 st [0] [] 1 Hk1)) Hne Hz).
Defined.

(** * Further properties of the program *)

(** ** Marking a sentence, against a board *)

Lemma size_filter_remove (b : Minesweeper.t) (c : Cell) (X : gset Cell) :
  c ∈ X →
  size (filter (is_mine b) X)
  = size (filter (is_mine b) (X ∖ {[c]})) + (if decide (is_mine b c) then 1 else 0).
Proof.
  intros Hc. destruct (decide (is_mine b c)) as [Hm|Hm].
  - assert (Heq : filter (is_mine b) X = {[c]} ∪ filter (is_mine b) (X ∖ {[c]})).
    { apply set_eq. intros x.
      rewrite elem_of_union, !elem_of_filter, elem_of_difference, elem_of_singleton.
      destruct (decide (x = c)) as [->|Hne]; naive_solver. }
    rewrite Heq, size_union, size_singleton; [lia|].
    intros x ->%elem_of_singleton [_ Hin]%elem_of_filter.
    apply elem_of_difference in Hin as [_ Hin]. apply Hin. by apply elem_of_singleton.
  - assert (Heq : filter (is_mine b) X = filter (is_mine b) (X ∖ {[c]})).
    { apply set_eq. intros x.
      rewrite !elem_of_filter, elem_of_difference, elem_of_singleton. naive_solver. }
    rewrite <- Heq. lia.
Qed.

(** X1: for a sentence that is true of a board and contains the cell,
    [mark_mine] leaves it true exactly when the cell is a mine of the board,
    and [mark_safe] leaves it true exactly when the cell is not. *)
Theorem sentence_mark_true_iff (b : Minesweeper.t) (c : Cell) (s : Sentence.t) :
  true_of b s → c ∈ Sentence.cells s →
  (true_of b (Sentence.mark_mine c s) ↔ is_mine b c) ∧
  (true_of b (Sentence.mark_safe c s) ↔ ¬ is_mine b c).
Proof.
  unfold true_of, Sentence.mark_mine, Sentence.mark_safe. intros Hs Hc.
  rewrite !(bool_decide_eq_true_2 _ Hc); simpl.
  pose proof (size_filter_remove b c (Sentence.cells s) Hc) as Hsz.
  destruct (decide (is_mine b c)) as [Hm|Hm]; (split; split); try tauto; try lia.
Qed.

Lemma sentence_mark_true_iff_witness :
  let s := Sentence.init {[(0, 1)%Z; (1, 0)%Z]} 1 in
  true_of board_2x3 s ∧ (0, 1)%Z ∈ Sentence.cells s ∧
  (true_of board_2x3 (Sentence.mark_mine (0, 1)%Z s) ↔ is_mine board_2x3 (0, 1)%Z) ∧
  (true_of board_2x3 (Sentence.mark_safe (0, 1)%Z s) ↔ ¬ is_mine board_2x3 (0, 1)%Z).
Proof.
  intros s.
  assert (Ht : true_of board_2x3 s) by (vm_compute; reflexivity).
  assert (Hc : (0, 1)%Z ∈ Sentence.cells s) by decide_by_evaluation.
  split; [exact Ht|]. split; [exact Hc|].
  exact (sentence_mark_true_iff board_2x3 (0, 1)%Z s Ht Hc).
Defined.

(** ** Marking through the references of [knowledge] *)

Lemma sentences_alter_all f (st : MinesweeperAI.t) :
  (∀ s, f (f s) = f s) → f (Sentence.init ∅ 0) = Sentence.init ∅ 0 →
  (λ a, default (Sentence.init ∅ 0) (alter_all f (knowledge st) (objects st) !! a))
    <$> knowledge st
  = f <$> sentences st.
Proof.
  intros Hf Hd. unfold sentences. rewrite <- list_fmap_compose.
  apply list_fmap_ext. intros i a Ha. simpl.
  apply deref_alter_all; [done..|]. by eapply list_elem_of_lookup_2.
Qed.

(** X2: [mark_mine] and [mark_safe] of the agent act on the sentences of
    [knowledge] as the method of [Sentence] acts on each of them, also when
    one object is referred to more than once; afterwards no sentence of
    [knowledge] contains the cell. *)
Theorem marks_reach_every_sentence (c : Cell) (st : MinesweeperAI.t) :
  sentences (mark_mine c st) = Sentence.mark_mine c <$> sentences st ∧
  sentences (mark_safe c st) = Sentence.mark_safe c <$> sentences st ∧
  (∀ s, s ∈ sentences (mark_mine c st) → c ∉ Sentence.cells s) ∧
  (∀ s, s ∈ sentences (mark_safe c st) → c ∉ Sentence.cells s).
Proof.
  assert (Hm : sentences (mark_mine c st) = Sentence.mark_mine c <$> sentences st).
  { rewrite mark_mine_unfold. unfold sentences at 1, deref; simpl.
    apply sentences_alter_all; [apply Sentence_mark_mine_idemp|done]. }
  assert (Hs : sentences (mark_safe c st) = Sentence.mark_safe c <$> sentences st).
  { rewrite mark_safe_unfold. unfold sentences at 1, deref; simpl.
    apply sentences_alter_all; [apply Sentence_mark_safe_idemp|done]. }
  split; [done|]. split; [done|]. rewrite Hm, Hs. split.
  - intros s (s0 & -> & _)%list_elem_of_fmap. unfold Sentence.mark_mine.
    case_bool_decide; simpl; [|done].
    rewrite elem_of_difference, elem_of_singleton. tauto.
  - intros s (s0 & -> & _)%list_elem_of_fmap. unfold Sentence.mark_safe.
    case_bool_decide; simpl; [|done].
    rewrite elem_of_difference, elem_of_singleton. tauto.
Qed.

(** ** The random move *)

Lemma elem_of_moves_left_to_play (st : MinesweeperAI.t) (c : Cell) :
  c ∈ moves_left_to_play st ↔
  ((0 ≤ c.1 < 8)%Z ∧ (0 ≤ c.2 < 8)%Z) ∧ (c ∉ moves_made st) ∧ (c ∉ mines st).
Proof.
  unfold moves_left_to_play, range. rewrite list_elem_of_bind. split.
  - intros (i & (j & Hc & Hj%elem_of_seqZ)%list_elem_of_bind & Hi%elem_of_seqZ).
    destruct (bool_decide ((i, j) ∉ moves_made st)) eqn:Hm;
      [|by apply elem_of_nil in Hc].
    destruct (bool_decide ((i, j) ∉ mines st)) eqn:Hn;
      [|by apply elem_of_nil in Hc].
    simpl in Hc. apply list_elem_of_singleton in Hc as ->.
    apply bool_decide_eq_true in Hm, Hn. simpl. repeat split; try done; lia.
  - intros ([Hi Hj] & Hm & Hn). destruct c as [i j]; cbn [fst snd] in *.
    exists i. split; [|apply elem_of_seqZ; lia].
    apply list_elem_of_bind. exists j. split; [|apply elem_of_seqZ; lia].
    rewrite !bool_decide_eq_true_2 by done. simpl. by apply list_elem_of_singleton.
Qed.

(** X3: whatever the shuffle does, [make_random_move] returns a cell of the
    8 x 8 square that is neither in [moves_made] nor in [mines] (it does not
    look at [safes], [height] or [width]), returns [None] exactly when every
    cell of that square is in [moves_made] or in [mines], and leaves the
    agent's state as it was. *)
Theorem make_random_move_spec (shuffle : list Cell → list Cell) (st : MinesweeperAI.t) :
  (∀ l, shuffle l ≡ₚ l) →
  (∀ c, fst (make_random_move shuffle st) = Some c →
        ((0 ≤ c.1 < 8)%Z ∧ (0 ≤ c.2 < 8)%Z) ∧ (c ∉ moves_made st) ∧ (c ∉ mines st)) ∧
  (fst (make_random_move shuffle st) = None ↔
   ∀ c, (0 ≤ c.1 < 8)%Z → (0 ≤ c.2 < 8)%Z → c ∈ moves_made st ∨ c ∈ mines st) ∧
  snd (make_random_move shuffle st) = st.
Proof.
  intros Hperm. unfold make_random_move; simpl.
  pose proof (Hperm (moves_left_to_play st)) as Hp.
  split; [|split; [|done]].
  - intros c Hc. apply elem_of_moves_left_to_play. rewrite <- Hp.
    destruct (shuffle (moves_left_to_play st)) as [|x l]; simplify_eq/=. left.
  - split.
    + intros Hnone c Hi Hj.
      destruct (shuffle (moves_left_to_play st)) as [|x l]; [|done].
      apply Permutation_nil_l in Hp.
      destruct (decide (c ∈ moves_made st)) as [|Hm]; [by left|].
      destruct (decide (c ∈ mines st)) as [|Hn]; [by right|].
      assert (Hin : c ∈ moves_left_to_play st) by by apply elem_of_moves_left_to_play.
      rewrite <- Hp in Hin. by apply elem_of_nil in Hin.
    + intros Hall. destruct (shuffle (moves_left_to_play st)) as [|x l]; [done|].
      assert (Hin : x ∈ moves_left_to_play st) by (rewrite <- Hp; left).
      apply elem_of_moves_left_to_play in Hin as ([Hi Hj] & Hm & Hn).
      destruct (Hall x Hi Hj); done.
Qed.

Lemma make_random_move_spec_witness :
  (∀ l : list Cell, id l ≡ₚ l) ∧
  (∀ c, fst (make_random_move id (init 8 8)) = Some c →
        ((0 ≤ c.1 < 8)%Z ∧ (0 ≤ c.2 < 8)%Z)
        ∧ (c ∉ moves_made (init 8 8)) ∧ (c ∉ mines (init 8 8))).
Proof.
  assert (Hid : ∀ l : list Cell, id l ≡ₚ l) by (intros l; reflexivity).
  split; [exact Hid|]. exact (proj1 (make_random_move_spec id (init 8 8) Hid)).
Defined.

(** ** [clean_up] on its own *)

Lemma clean_up_loop_keeps (st : MinesweeperAI.t) (l u : list loc) :
  NoDup (deref st <$> (u ++ l)) →
  foldl (λ unique a, if contains st unique a then unique else unique ++ [a]) u l = u ++ l.
Proof.
  revert u. induction l as [|a l IH]; intros u Hnd; simpl; [by rewrite app_nil_r|].
  assert (Hc : contains st u a = false).
  { destruct (contains st u a) eqn:Hc; [|done]. apply contains_spec in Hc.
    rewrite fmap_app, fmap_cons in Hnd. apply NoDup_app in Hnd as (_ & Hdis & _).
    destruct (Hdis _ Hc). left. }
  rewrite Hc, IH; [by rewrite <- app_assoc|]. by rewrite <- app_assoc.
Qed.

Lemma clean_up_loop_sublist (st : MinesweeperAI.t) (l u : list loc) :
  ∃ k, foldl (λ unique a, if contains st unique a then unique else unique ++ [a]) u l
       = u ++ k ∧ k `sublist_of` l.
Proof.
  revert u. induction l as [|a l IH]; intros u; simpl.
  - exists []. by rewrite app_nil_r.
  - destruct (contains st u a).
    + destruct (IH u) as (k & -> & Hk). exists k. split; [done|]. by apply sublist_cons.
    + destruct (IH (u ++ [a])) as (k & -> & Hk). exists (a :: k).
      split; [by rewrite <- app_assoc|]. by apply sublist_skip.
Qed.

(** X4: [clean_up] only drops references from [knowledge], keeping the
    order of the rest; it changes nothing when no two sentences of
    [knowledge] are equal; and running it twice is the same as running it
    once. *)
Theorem clean_up_settles (st : MinesweeperAI.t) :
  knowledge (clean_up st) `sublist_of` knowledge st ∧
  (NoDup (sentences st) → clean_up st = st) ∧
  clean_up (clean_up st) = clean_up st.
Proof.
  assert (Hfix : ∀ st', NoDup (sentences st') → clean_up st' = st').
  { intros st' Hnd. unfold clean_up.
    rewrite (clean_up_loop_keeps st' (knowledge st') []); [by destruct st'|done]. }
  split; [|split; [apply Hfix|]].
  - unfold clean_up; simpl.
    destruct (clean_up_loop_sublist st (knowledge st) []) as (k & -> & Hk). done.
  - apply Hfix. rewrite clean_up_sentences.
    apply (first_occurrences_NoDup []), NoDup_nil_2.
Qed.

(** ** What the operations leave alone *)

Lemma frame_refl (st : MinesweeperAI.t) : frame st st.
Proof. by constructor. Qed.

Lemma frame_trans (st1 st2 st3 : MinesweeperAI.t) :
  frame st1 st2 → frame st2 st3 → frame st1 st3.
Proof. intros [] []. constructor; congruence. Qed.

Lemma frame_foldl {A} (f : MinesweeperAI.t → A → MinesweeperAI.t) (l : list A)
    (st : MinesweeperAI.t) :
  (∀ st x, frame st (f st x)) → frame st (foldl f st l).
Proof.
  intros Hf. revert st. induction l as [|x l IH]; intros st; simpl.
  - apply frame_refl.
  - eapply frame_trans; [apply Hf|apply IH].
Qed.

Lemma frame_mark_mine (c : Cell) (st : MinesweeperAI.t) : frame st (mark_mine c st).
Proof. rewrite mark_mine_unfold. by constructor. Qed.

Lemma frame_mark_safe (c : Cell) (st : MinesweeperAI.t) : frame st (mark_safe c st).
Proof. rewrite mark_safe_unfold. by constructor. Qed.

Lemma frame_mark_mines (cs : gset Cell) (st : MinesweeperAI.t) :
  frame st (mark_mines cs st).
Proof. apply frame_foldl. intros. apply frame_mark_mine. Qed.

Lemma frame_mark_safes (cs : gset Cell) (st : MinesweeperAI.t) :
  frame st (mark_safes cs st).
Proof. apply frame_foldl. intros. apply frame_mark_safe. Qed.

Lemma frame_resolve (diff : gset Cell) (e : bool) (d : Z) (st : MinesweeperAI.t) :
  frame st (resolve diff e d st).
Proof.
  unfold resolve. case_bool_decide; [|apply frame_refl].
  destruct e; [apply frame_mark_safes|].
  case_bool_decide; [apply frame_mark_mines|]. by constructor.
Qed.

Lemma frame_infer_step (new : loc) (st : MinesweeperAI.t) (a : loc) :
  frame st (infer_step new st a).
Proof.
  unfold infer_step. apply (frame_trans _ (clean_up st)); [by constructor|].
  repeat case_bool_decide; try apply frame_resolve. apply frame_refl.
Qed.

Lemma frame_make_inferences (new : loc) (st : MinesweeperAI.t) :
  frame st (make_inferences new st).
Proof. apply frame_foldl. intros. apply frame_infer_step. Qed.

Lemma frame_remove_step (st : MinesweeperAI.t) (nk : list loc) (a : loc) :
  frame st (fst (remove_step (st, nk) a)).
Proof.
  unfold remove_step.
  destruct (truthy (Sentence.known_mines _)); simpl; [apply frame_mark_mines|].
  destruct (truthy (Sentence.known_safes _)); simpl; [apply frame_mark_safes|].
  apply frame_refl.
Qed.

Lemma frame_foldl_remove_step (l : list loc) (acc : MinesweeperAI.t * list loc) :
  frame (fst acc) (fst (foldl remove_step acc l)).
Proof.
  revert acc. induction l as [|a l IH]; intros [st nk]; cbn [foldl fst];
    [apply frame_refl|].
  eapply frame_trans; [apply (frame_remove_step st nk a)|]. apply IH.
Qed.

Lemma frame_remove_knowns (st : MinesweeperAI.t) : frame st (remove_knowns st).
Proof.
  unfold remove_knowns, remove_loop.
  pose proof (frame_foldl_remove_step (knowledge st) (st, [])) as Hg.
  destruct (foldl remove_step (st, []) (knowledge st)) as [st' nk].
  eapply frame_trans; [apply Hg|]. by constructor.
Qed.

(** The number of [Sentence] objects under marking. *)
Lemma alter_all_length f l (o : list Sentence.t) : length (alter_all f l o) = length o.
Proof.
  revert o. induction l as [|a l IH]; intros o; [done|].
  by rewrite alter_all_cons, IH, length_alter.
Qed.

Lemma objects_mark_mines (cs : gset Cell) (st : MinesweeperAI.t) :
  length (objects (mark_mines cs st)) = length (objects st).
Proof.
  unfold mark_mines. generalize (elements cs) as l. intros l. revert st.
  induction l as [|c l IH]; intros st; simpl; [done|].
  rewrite IH, mark_mine_unfold; simpl. apply alter_all_length.
Qed.

Lemma objects_mark_safes (cs : gset Cell) (st : MinesweeperAI.t) :
  length (objects (mark_safes cs st)) = length (objects st).
Proof.
  unfold mark_safes. generalize (elements cs) as l. intros l. revert st.
  induction l as [|c l IH]; intros st; simpl; [done|].
  rewrite IH, mark_safe_unfold; simpl. apply alter_all_length.
Qed.

Lemma remove_fold_sublist (l : list loc) (st : MinesweeperAI.t) (nk : list loc) :
  ∃ kept, snd (foldl remove_step (st, nk) l) = nk ++ kept ∧ kept `sublist_of` l
          ∧ length (objects (fst (foldl remove_step (st, nk) l))) = length (objects st).
Proof.
  revert st nk. induction l as [|a l IH]; intros st nk; cbn [foldl].
  - exists []. by rewrite app_nil_r.
  - destruct (remove_step_cases st nk a) as [(_ & _ & ->)|[(_ & _ & ->)|(_ & ->)]].
    + destruct (IH (mark_mines (Sentence.cells (deref st a)) st) nk) as (kept & -> & Hk & ->).
      exists kept. split; [done|]. split; [by apply sublist_cons|].
      apply objects_mark_mines.
    + destruct (IH (mark_safes (Sentence.cells (deref st a)) st) nk) as (kept & -> & Hk & ->).
      exists kept. split; [done|]. split; [by apply sublist_cons|].
      apply objects_mark_safes.
    + destruct (IH st (nk ++ [a])) as (kept & -> & Hk & ->).
      exists (a :: kept). split; [by rewrite <- app_assoc|].
      split; [by apply sublist_skip|done].
Qed.

Lemma remove_knowns_sublist (st : MinesweeperAI.t) :
  knowledge (remove_knowns st) `sublist_of` knowledge st.
Proof.
  unfold remove_knowns, remove_loop.
  destruct (remove_fold_sublist (knowledge st) st []) as (kept & Hk & Hsub & _).
  destruct (foldl remove_step (st, []) (knowledge st)) as [st' nk].
  simpl in *. by subst nk.
Qed.

(** X5: [remove_knowns] only drops references from [knowledge], keeping
    the order of the rest; it creates no [Sentence] object, and it leaves
    the dimensions and [moves_made] as they were. *)
Theorem remove_knowns_only_drops (st : MinesweeperAI.t) :
  knowledge (remove_knowns st) `sublist_of` knowledge st ∧
  length (objects (remove_knowns st)) = length (objects st) ∧
  frame st (remove_knowns st).
Proof.
  split; [|split; [|apply frame_remove_knowns]].
  - apply remove_knowns_sublist.
  - unfold remove_knowns, remove_loop.
    destruct (remove_fold_sublist (knowledge st) st []) as (kept & _ & _ & Hlen).
    destruct (foldl remove_step (st, []) (knowledge st)) as [st' nk].
    simpl in *. done.
Qed.

Lemma frame_observe (cell : Cell) (count : Z) (st : MinesweeperAI.t) :
  let st' := snd (observe cell count st) in
  height st' = height st ∧ width st' = width st ∧
  moves_made st' = {[cell]} ∪ moves_made st ∧ cell ∈ safes st'.
Proof.
  unfold observe.
  set (st1 := set_moves_made _ st).
  destruct (nearby_cells cell count (mark_safe cell st1)) as [cells n]. simpl.
  rewrite mark_safe_unfold; simpl. repeat split.
  apply elem_of_union_l. by apply elem_of_singleton.
Qed.

(** X6: [add_knowledge] adds the cell, and nothing else, to [moves_made],
    has the cell in [safes] afterwards, leaves the dimensions as they were,
    leaves no reference twice in [knowledge], and [make_safe_move] right
    after it does not return that cell. *)
Theorem add_knowledge_records_the_move (cell : Cell) (count : Z) (st : MinesweeperAI.t) :
  let st' := add_knowledge cell count st in
  moves_made st' = {[cell]} ∪ moves_made st ∧
  cell ∈ safes st' ∧
  height st' = height st ∧ width st' = width st ∧
  NoDup (knowledge st') ∧
  fst (make_safe_move st') ≠ Some cell.
Proof.
  intros st'.
  assert (Hfr : moves_made st' = {[cell]} ∪ moves_made st ∧ cell ∈ safes st'
                ∧ height st' = height st ∧ width st' = width st).
  { unfold st', add_knowledge, add_knowledge_appended.
    pose proof (frame_observe cell count st) as (Hh & Hw & Hm & Hs).
    destruct (observe cell count st) as [new st1]. simpl in Hh, Hw, Hm, Hs.
    set (st2 := make_inferences new st1).
    set (st3 := clean_up (set_knowledge (knowledge st2 ++ [new]) st2)).
    assert (F12 : frame st1 st2) by apply frame_make_inferences.
    assert (F23 : frame st2 st3) by by constructor.
    assert (F3 : frame st3 (remove_knowns st3)) by apply frame_remove_knowns.
    pose proof (frame_trans _ _ _ F12 (frame_trans _ _ _ F23 F3)) as [Fh Fw Fm].
    assert (G12 : grows st1 st2) by apply grows_make_inferences.
    assert (G23 : grows st2 st3) by by constructor.
    assert (G3 : grows st3 (remove_knowns st3)) by apply grows_remove_knowns.
    pose proof (grows_trans _ _ _ G12 (grows_trans _ _ _ G23 G3)) as [Gs _ _].
    split; [congruence|]. split; [by apply Gs|]. split; congruence. }
  destruct Hfr as (Hm & Hs & Hh & Hw).
  split; [done|]. split; [done|]. split; [done|]. split; [done|]. split.
  - unfold st', add_knowledge.
    eapply sublist_NoDup; [apply clean_up_NoDup|apply remove_knowns_sublist].
  - unfold make_safe_move; simpl. intros Hf. apply find_some in Hf as [_ Hb].
    apply andb_true_iff in Hb as [Hb _]. apply bool_decide_eq_true in Hb.
    apply Hb. rewrite Hm. apply elem_of_union_l. by apply elem_of_singleton.
Qed.

(** ** The neighbourhood of a cell *)

Lemma elem_of_neighbourhood (cell c : Cell) :
  c ∈ neighbourhood cell ↔
  (cell.1 - 1 ≤ c.1 ≤ cell.1 + 1)%Z ∧ (cell.2 - 1 ≤ c.2 ≤ cell.2 + 1)%Z.
Proof.
  unfold neighbourhood, range. rewrite list_elem_of_bind. split.
  - intros (i & (j & ->%list_elem_of_singleton & Hj%elem_of_seqZ)%list_elem_of_bind
              & Hi%elem_of_seqZ). simpl. lia.
  - intros [Hi Hj]. destruct c as [i j]; cbn [fst snd] in *.
    exists i. split; [|apply elem_of_seqZ; lia].
    apply list_elem_of_bind. exists j. split; [|apply elem_of_seqZ; lia].
    by apply list_elem_of_singleton.
Qed.

Lemma elem_of_neighbours (cell c : Cell) : c ∈ neighbours cell ↔ adjacent cell c.
Proof.
  unfold neighbours, adjacent.
  rewrite elem_of_difference, elem_of_list_to_set, elem_of_neighbourhood,
    elem_of_singleton. tauto.
Qed.

Lemma length_neighbourhood (cell : Cell) : length (neighbourhood cell) = 9.
Proof.
  unfold neighbourhood, range.
  replace (cell.1 + 2 - (cell.1 - 1))%Z with 3%Z by lia.
  replace (cell.2 + 2 - (cell.2 - 1))%Z with 3%Z by lia.
  reflexivity.
Qed.

Lemma size_neighbours (cell : Cell) : size (neighbours cell) = 8.
Proof.
  unfold neighbours. rewrite size_difference.
  - rewrite size_list_to_set by apply NoDup_neighbourhood.
    by rewrite length_neighbourhood, size_singleton.
  - intros x ->%elem_of_singleton. apply elem_of_list_to_set, elem_of_neighbourhood. lia.
Qed.

(** Counting the elements of a list without repetition that pass a test. *)
Lemma foldl_count (P : Cell → Prop) `{!∀ c, Decision (P c)} (l : list Cell) (m : Z) :
  NoDup l →
  foldl (λ n c, if decide (P c) then (n + 1)%Z else n) m l
  = (m + Z.of_nat (size (filter P (list_to_set l : gset Cell))))%Z.
Proof.
  intros Hnd. revert m. induction Hnd as [|c l Hc Hnd IH]; intros m; simpl.
  - rewrite filter_empty_L, size_empty by apply _. lia.
  - rewrite IH. destruct (decide (P c)) as [Hp|Hp].
    + assert (Heq : filter P ({[c]} ∪ list_to_set l : gset Cell)
                    = {[c]} ∪ filter P (list_to_set l : gset Cell)).
      { apply set_eq. intros x.
        rewrite elem_of_filter, !elem_of_union, elem_of_filter, elem_of_singleton.
        naive_solver. }
      rewrite Heq, size_union, size_singleton; [lia|].
      intros x ->%elem_of_singleton [_ Hin%elem_of_list_to_set]%elem_of_filter. done.
    + assert (Heq : filter P ({[c]} ∪ list_to_set l : gset Cell)
                    = filter P (list_to_set l : gset Cell)).
      { apply set_eq. intros x.
        rewrite !elem_of_filter, elem_of_union, elem_of_singleton. naive_solver. }
      by rewrite Heq.
Qed.

Lemma cells_fold_elem_of (st : MinesweeperAI.t) (cell : Cell) (l : list Cell)
    (cs : gset Cell) (n : Z) (x : Cell) :
  x ∈ fst (foldl (cells_step st cell) (cs, n) l) ↔
  x ∈ cs ∨ (x ∈ l ∧ x ≠ cell ∧ on_board st x ∧ (x ∉ safes st) ∧ (x ∉ mines st)).
Proof.
  revert cs n. induction l as [|c l IH]; intros cs n; cbn [foldl].
  - simpl. split; [by left|]. intros [?|[?%elem_of_nil _]]; done.
  - destruct (cells_step st cell (cs, n) c) as [cs' n'] eqn:Hstep.
    rewrite IH. unfold cells_step in Hstep.
    case_bool_decide as Hcell.
    + injection Hstep as <- <-. rewrite elem_of_cons. naive_solver.
    + injection Hstep as <- <-.
      destruct (decide (on_board st c ∧ (c ∉ safes st) ∧ (c ∉ mines st)))
        as [(Hb & Hs & Hm)|Hno].
      * destruct Hb as [Hi Hj]. rewrite !bool_decide_eq_true_2 by done. simpl.
        rewrite elem_of_union, elem_of_singleton, elem_of_cons.
        unfold on_board. naive_solver.
      * assert (Hf : bool_decide (0 ≤ c.1 < height st)%Z
                     && bool_decide (0 ≤ c.2 < width st)%Z
                     && bool_decide (c ∉ safes st) && bool_decide (c ∉ mines st) = false).
        { apply not_true_is_false. intros Ht. apply Hno.
          apply andb_true_iff in Ht as [Ht Hm]. apply andb_true_iff in Ht as [Ht Hs].
          apply andb_true_iff in Ht as [Hi Hj].
          apply bool_decide_eq_true in Hi, Hj, Hs, Hm.
          exact (conj (conj Hi Hj) (conj Hs Hm)). }
        rewrite Hf, elem_of_cons. split.
        { intros [?|[Hl Hrest]]; [by left|right]. split; [by right|exact Hrest]. }
        intros [?|([->|Hl] & Hne & Hb & Hs & Hm)].
        -- by left.
        -- destruct Hno. exact (conj Hb (conj Hs Hm)).
        -- right. exact (conj Hl (conj Hne (conj Hb (conj Hs Hm)))).
Qed.

Lemma cells_fold_count (st : MinesweeperAI.t) (cell : Cell) (l : list Cell)
    (cs : gset Cell) (n : Z) :
  snd (foldl (cells_step st cell) (cs, n) l)
  = (n - foldl (λ k c, if decide (c ≠ cell ∧ c ∈ mines st) then (k + 1)%Z else k) 0%Z l)%Z.
Proof.
  assert (Hgen : ∀ k0,
    snd (foldl (cells_step st cell) (cs, n) l)
    = (n + k0 - foldl (λ k c, if decide (c ≠ cell ∧ c ∈ mines st)
                              then (k + 1)%Z else k) k0 l)%Z).
  { revert cs n. induction l as [|c l IH]; intros cs n k0; cbn [foldl]; [simpl; lia|].
    destruct (cells_step st cell (cs, n) c) as [cs' n'] eqn:Hstep.
    rewrite (IH cs' n' (if decide (c ≠ cell ∧ c ∈ mines st) then (k0 + 1)%Z else k0)).
    unfold cells_step in Hstep.
    destruct (decide (c ≠ cell ∧ c ∈ mines st)) as [[Hne Hm]|Hno].
    - rewrite (bool_decide_eq_false_2 _ Hne), (bool_decide_eq_true_2 _ Hm) in Hstep.
      injection Hstep as <- <-. lia.
    - case_bool_decide as Hcell; [injection Hstep as <- <-; lia|].
      rewrite (bool_decide_eq_false_2 (c ∈ mines st)) in Hstep by tauto.
      injection Hstep as <- <-. lia. }
  rewrite (Hgen 0%Z). lia.
Qed.

(** X7: the cells that [nearby_cells] returns are exactly the cells around
    [cell] that lie on the board and are in neither [safes] nor [mines]
    (never [cell] itself, at most eight); the count it returns is the count
    given minus the number of cells around [cell] that are in [mines],
    whether these lie on the board or not. *)
Theorem nearby_cells_spec (cell : Cell) (count : Z) (st : MinesweeperAI.t) :
  let r := nearby_cells cell count st in
  (∀ c, c ∈ fst r ↔
        adjacent cell c ∧ on_board st c ∧ (c ∉ safes st) ∧ (c ∉ mines st)) ∧
  snd r = (count - Z.of_nat (size (filter (adjacent cell) (mines st))))%Z ∧
  size (fst r) ≤ 8.
Proof.
  cbv zeta. rewrite nearby_cells_foldl.
  assert (Hin : ∀ c, c ∈ fst (foldl (cells_step st cell) (∅, count) (neighbourhood cell)) ↔
        adjacent cell c ∧ on_board st c ∧ (c ∉ safes st) ∧ (c ∉ mines st)).
  { intros c. rewrite cells_fold_elem_of, elem_of_neighbourhood. unfold adjacent.
    split; [|naive_solver]. intros [?%not_elem_of_empty|?]; [done|tauto]. }
  split; [exact Hin|]. split.
  - rewrite cells_fold_count, foldl_count by apply NoDup_neighbourhood.
    assert (Heq : filter (λ c, c ≠ cell ∧ c ∈ mines st)
                    (list_to_set (neighbourhood cell) : gset Cell)
                  = filter (adjacent cell) (mines st)).
    { apply set_eq. intros x.
      rewrite !elem_of_filter, elem_of_list_to_set, elem_of_neighbourhood.
      unfold adjacent. tauto. }
    rewrite Heq. lia.
  - rewrite <- (size_neighbours cell). apply subseteq_size.
    intros c Hc%Hin. apply elem_of_neighbours. tauto.
Qed.

Lemma nearby_mines_count (b : Minesweeper.t) (cell : Cell) :
  Minesweeper.nearby_mines b cell
  = Z.of_nat (size (filter (is_mine b) (neighbours cell))).
Proof.
  rewrite nearby_mines_foldl.
  rewrite (foldl_ext (mines_step b cell)
             (λ n c, if decide (c ≠ cell ∧ is_mine b c) then (n + 1)%Z else n)).
  - rewrite foldl_count by apply NoDup_neighbourhood.
    assert (Hset : filter (λ c, c ≠ cell ∧ is_mine b c)
                     (list_to_set (neighbourhood cell) : gset Cell)
                   = filter (is_mine b) (neighbours cell)).
    { apply set_eq. intros x. unfold neighbours.
      rewrite !elem_of_filter, elem_of_difference, elem_of_singleton. tauto. }
    rewrite Hset. lia.
  - intros n c. unfold mines_step.
    case_bool_decide as Hc.
    + rewrite decide_False by tauto. done.
    + destruct (decide (is_mine b c)) as [Hm|Hm].
      * rewrite decide_True by done. unfold is_mine in Hm. by rewrite Hm.
      * rewrite decide_False by tauto. unfold is_mine in Hm.
        apply not_true_is_false in Hm. by rewrite Hm.
Qed.

(** X8: [nearby_mines] is the number of cells around [cell] that are mines
    on the board; it lies between 0 and 8 and does not count [cell]. *)
Theorem nearby_mines_spec (b : Minesweeper.t) (cell : Cell) :
  Minesweeper.nearby_mines b cell
  = Z.of_nat (size (filter (is_mine b) (neighbours cell))) ∧
  (0 ≤ Minesweeper.nearby_mines b cell ≤ 8)%Z ∧
  (∀ c, c ∈ neighbours cell ↔ adjacent cell c).
Proof.
  pose proof (nearby_mines_count b cell) as Heq.
  split; [exact Heq|]. split; [|apply elem_of_neighbours].
  rewrite Heq. split; [lia|].
  pose proof (subseteq_size (filter (is_mine b) (neighbours cell)) (neighbours cell)) as Hle.
  rewrite size_neighbours in Hle. apply inj_le in Hle; [exact Hle|].
  intros x. rewrite elem_of_filter. tauto.
Qed.

(** ** The branch of [make_inferences] that works *)

Lemma knowledge_mark_mines (cs : gset Cell) (st : MinesweeperAI.t) :
  knowledge (mark_mines cs st) = knowledge st.
Proof.
  unfold mark_mines. generalize (elements cs) as l. intros l. revert st.
  induction l as [|c l IH]; intros st; simpl; [done|].
  by rewrite IH, mark_mine_unfold.
Qed.

Lemma knowledge_mark_safes (cs : gset Cell) (st : MinesweeperAI.t) :
  knowledge (mark_safes cs st) = knowledge st.
Proof.
  unfold mark_safes. generalize (elements cs) as l. intros l. revert st.
  induction l as [|c l IH]; intros st; simpl; [done|].
  by rewrite IH, mark_safe_unfold.
Qed.

(** X9: one iteration of [make_inferences] on an existing sentence whose
    cells contain those of the new sentence.  With equal cell sets it only
    runs [clean_up]. Otherwise, with [diff] the existing cells minus the new
    ones: equal counts put all of [diff] in [safes]; else a difference of
    counts equal to the size of [diff] puts all of [diff] in [mines]; else a
    new sentence object [diff = count difference] is created and appended to
    [knowledge], and nothing is marked. *)
Theorem existing_superset_is_resolved (new a : loc) (st : MinesweeperAI.t) :
  let s := deref st a in
  let n := deref st new in
  let diff := Sentence.cells s ∖ Sentence.cells n in
  let d := (Sentence.count s - Sentence.count n)%Z in
  let st' := infer_step new st a in
  Sentence.cells n ⊆ Sentence.cells s →
  (diff = ∅ → st' = clean_up st) ∧
  (diff ≠ ∅ → d = 0%Z →
   diff ⊆ safes st' ∧ knowledge st' = knowledge (clean_up st)) ∧
  (diff ≠ ∅ → d ≠ 0%Z → Z.of_nat (size diff) = d →
   diff ⊆ mines st' ∧ knowledge st' = knowledge (clean_up st)) ∧
  (diff ≠ ∅ → d ≠ 0%Z → Z.of_nat (size diff) ≠ d →
   knowledge st' = knowledge (clean_up st) ++ [length (objects st)] ∧
   objects st' = objects st ++ [Sentence.init diff d] ∧
   safes st' = safes st ∧ mines st' = mines st).
Proof.
  intros s n diff d st' Hsub.
  assert (Hst' : st' = resolve diff (bool_decide (Sentence.count s = Sentence.count n))
                         d (clean_up st)).
  { unfold st', infer_step. change (deref (clean_up st)) with (deref st).
    fold s n. by rewrite (bool_decide_eq_true_2 _ Hsub). }
  rewrite Hst'. unfold resolve. split; [|split; [|split]].
  - intros ->. by rewrite bool_decide_eq_false_2 by (by intros []).
  - intros Hne Hd. rewrite (bool_decide_eq_true_2 _ Hne).
    rewrite bool_decide_eq_true_2 by (unfold d in Hd; lia).
    split; [|apply knowledge_mark_safes].
    intros c Hc. by apply mark_safes_elem_of.
  - intros Hne Hd Hsz. rewrite (bool_decide_eq_true_2 _ Hne).
    rewrite bool_decide_eq_false_2 by (unfold d in Hd; lia).
    rewrite (bool_decide_eq_true_2 _ Hsz).
    split; [|apply knowledge_mark_mines].
    intros c Hc. by apply mark_mines_elem_of.
  - intros Hne Hd Hsz. rewrite (bool_decide_eq_true_2 _ Hne).
    rewrite bool_decide_eq_false_2 by (unfold d in Hd; lia).
    rewrite (bool_decide_eq_false_2 _ Hsz). done.
Qed.

Lemma existing_superset_is_resolved_witness :
  let st := mk 3 3 ∅ ∅ ∅ [0]
              [Sentence.init {[(0, 0)%Z; (0, 1)%Z; (0, 2)%Z]} 1;
               Sentence.init {[(0, 0)%Z; (0, 1)%Z]} 1] in
  Sentence.cells (deref st 1) ⊆ Sentence.cells (deref st 0) ∧
  (0, 2)%Z ∈ safes (infer_step 1 st 0).
Proof.
  intros st.
  assert (Hsub : Sentence.cells (deref st 1) ⊆ Sentence.cells (deref st 0))
    by decide_by_evaluation.
  split; [exact Hsub|].
  destruct (existing_superset_is_resolved 1 0 st Hsub) as (_ & Hsafe & _).
  destruct Hsafe as [Hin _].
  - decide_by_evaluation.
  - vm_compute. reflexivity.
  - apply Hin. decide_by_evaluation.
Defined.

(** ** What the agent concludes is true of the board *)

(** X10: from a state in which everything recorded is a fact of a board,
    and through operations that agree with that board, every cell in
    [mines] is a mine of the board, no cell in [safes] is one, every
    sentence in [knowledge] is true of the board, and the cell that
    [make_safe_move] returns is not a mine. *)
Theorem conclusions_are_facts_of_the_board (b : Minesweeper.t) (ops : list op)
    (st0 : MinesweeperAI.t) :
  sound b st0 → Forall (consistent b) ops →
  let st := run ops st0 in
  (∀ c, c ∈ mines st → is_mine b c) ∧
  (∀ c, c ∈ safes st → ¬ is_mine b c) ∧
  Forall (true_of b) (sentences st) ∧
  (∀ c, fst (make_safe_move st) = Some c → ¬ is_mine b c).
Proof.
  intros Hs0 Hops st.
  assert (Hs : sound b st) by by apply sound_run.
  split; [apply (sound_mines _ _ Hs)|]. split; [apply (sound_safes _ _ Hs)|].
  split; [by apply sound_sentences|].
  intros c Hf. unfold make_safe_move in Hf; simpl in Hf.
  apply find_some in Hf as [Hin _].
  apply list_elem_of_In, elem_of_elements in Hin. by apply (sound_safes _ _ Hs).
Qed.

Lemma conclusions_are_facts_of_the_board_witness :
  sound board_2x3 (init 2 3) ∧ Forall (consistent board_2x3) reveal_two ∧
  Forall (true_of board_2x3) (sentences (run reveal_two (init 2 3))).
Proof.
  split; [exact (sound_init board_2x3)|]. split; [exact reveal_two_consistent|].
  exact (proj1 (proj2 (proj2 (conclusions_are_facts_of_the_board board_2x3 reveal_two
    (init 2 3) (sound_init board_2x3) reveal_two_consistent)))).
Defined.

(** ** The board's constructor *)

Lemma board_get_empty (h w i j : Z) :
  default false (row ← Game.empty_board h w !! Z.to_nat i; row !! Z.to_nat j) = false.
Proof.
  unfold Game.empty_board. rewrite list_lookup_fmap.
  destruct (range 0 h !! Z.to_nat i); simpl; [|done].
  rewrite list_lookup_fmap. by destruct (range 0 w !! Z.to_nat j).
Qed.

Lemma board_get_set (board : list (list bool)) (h w i j i' j' : Z) :
  length board = Z.to_nat h → Forall (λ row, length row = Z.to_nat w) board →
  (0 ≤ i < h)%Z → (0 ≤ j < w)%Z → (0 ≤ i')%Z → (0 ≤ j')%Z →
  default false (row ← Game.board_set board i j !! Z.to_nat i'; row !! Z.to_nat j')
  = if decide (i' = i ∧ j' = j) then true
    else default false (row ← board !! Z.to_nat i'; row !! Z.to_nat j').
Proof.
  intros Hlen Hrows Hi Hj Hi' Hj'. unfold Game.board_set.
  destruct (decide (i' = i)) as [->|Hne].
  - rewrite list_lookup_alter_eq.
    destruct (board !! Z.to_nat i) as [row|] eqn:E.
    + simpl. pose proof (Forall_lookup_1 _ _ _ _ Hrows E) as Hrow. simpl in Hrow.
      destruct (decide (j' = j)) as [->|Hnej].
      * rewrite list_lookup_insert_eq by lia. by rewrite decide_True.
      * rewrite list_lookup_insert_ne by lia. by rewrite decide_False by tauto.
    + apply lookup_ge_None in E. lia.
  - rewrite list_lookup_alter_ne by lia. by rewrite decide_False by tauto.
Qed.

Section constructor.
Context (h w : Z).

Lemma game_ok_empty :
  game_ok h w
    {| Game.field := {| Minesweeper.height := h; Minesweeper.width := w;
                        Minesweeper.board := Game.empty_board h w |};
       Game.mines := ∅; Game.mines_found := ∅ |}.
Proof.
  constructor; simpl; try done.
  - unfold Game.empty_board, range. rewrite length_fmap, length_seqZ. lia.
  - unfold Game.empty_board. apply Forall_fmap, Forall_forall. intros x _. simpl.
    unfold range. rewrite length_fmap, length_seqZ. lia.
  - intros c. unfold is_mine, Minesweeper.mine_in_bounds, Minesweeper.board_get; simpl.
    rewrite board_get_empty, andb_false_r. split; [done|]. by intros ?%not_elem_of_empty.
Qed.

Lemma place_mines (g : Game.t) (c : Cell) :
  game_ok h w g → Game.in_range h w c →
  game_ok h w (Game.place g c) ∧ Game.mines (Game.place g c) = {[c]} ∪ Game.mines g.
Proof.
  intros Hok [Hi Hj]. unfold Game.place.
  destruct (Minesweeper.board_get (Game.field g) c.1 c.2) eqn:Hget; simpl.
  - split; [done|].
    assert (Hin : c ∈ Game.mines g).
    { apply (ok_mines _ _ _ Hok). unfold is_mine, Minesweeper.mine_in_bounds.
      rewrite (ok_height _ _ _ Hok), (ok_width _ _ _ Hok), Hget.
      by rewrite !bool_decide_eq_true_2. }
    apply set_eq. intros x. rewrite elem_of_union, elem_of_singleton. naive_solver.
  - split; [|done]. destruct Hok as [Hh Hw Hrows Hcols Hmines Hfound].
    constructor; simpl; try done.
    + unfold Game.board_set. by rewrite length_alter.
    + unfold Game.board_set. apply Forall_lookup. intros k row Hk.
      destruct (decide (Z.to_nat c.1 = k)) as [<-|Hne].
      * rewrite list_lookup_alter_eq in Hk.
        destruct (Minesweeper.board (Game.field g) !! Z.to_nat c.1) as [row0|] eqn:E;
          simplify_eq/=. rewrite length_insert.
        apply (Forall_lookup_1 _ _ _ _ Hcols E).
      * rewrite list_lookup_alter_ne in Hk by done.
        apply (Forall_lookup_1 _ _ _ _ Hcols Hk).
    + intros x. rewrite elem_of_union, elem_of_singleton, <- Hmines.
      unfold is_mine, Minesweeper.mine_in_bounds, Minesweeper.board_get; simpl.
      rewrite Hh, Hw.
      destruct (decide ((0 ≤ x.1 < h)%Z ∧ (0 ≤ x.2 < w)%Z)) as [[Hx1 Hx2]|Hout].
      * rewrite !bool_decide_eq_true_2 by done. simpl.
        rewrite (board_get_set _ h w) by (done || lia).
        destruct (decide (x.1 = c.1 ∧ x.2 = c.2)) as [[E1 E2]|Hne].
        -- split; [|done]. intros _. left. destruct x, c; simpl in *. congruence.
        -- split; [by right|]. intros [->|Hb]; [|done]. destruct Hne. done.
      * assert (Hf : bool_decide (0 ≤ x.1 < h)%Z && bool_decide (0 ≤ x.2 < w)%Z = false).
        { apply not_true_is_false. intros Ht. apply Hout.
          apply andb_true_iff in Ht as [H1 H2]. apply bool_decide_eq_true in H1, H2. done. }
        rewrite Hf. simpl. split; [done|]. intros [->|?]; [|done]. destruct Hout. done.
Qed.

Lemma add_mines_result (n : Z) (draws : list Cell) (g g' : Game.t) :
  game_ok h w g → Forall (Game.in_range h w) draws →
  Game.add_mines n draws g = Some g' →
  game_ok h w g' ∧ Z.of_nat (size (Game.mines g')) = n ∧
  Game.mines g' ⊆ Game.mines g ∪ list_to_set draws.
Proof.
  intros Hok Hdraws. revert g Hok.
  induction Hdraws as [|c draws Hc _ IH]; intros g Hok; simpl.
  - case_bool_decide as Hn; [done|]. intros [= <-].
    split; [done|]. split; [|apply union_subseteq_l].
    destruct (decide (Z.of_nat (size (Game.mines g)) = n)); [done|]. by destruct Hn.
  - case_bool_decide as Hn.
    + intros Hadd. destruct (place_mines g c Hok Hc) as [Hok' Hm].
      destruct (IH _ Hok' Hadd) as (Hok'' & Hsz & Hsub).
      split; [done|]. split; [done|]. rewrite Hm in Hsub.
      intros x Hx%Hsub. rewrite !elem_of_union, elem_of_singleton in *. tauto.
    + intros [= <-]. split; [done|]. split; [|apply union_subseteq_l].
      destruct (decide (Z.of_nat (size (Game.mines g)) = n)); [done|]. by destruct Hn.
Qed.

Lemma add_mines_returns (n : Z) (draws : list Cell) (g : Game.t) :
  game_ok h w g → Forall (Game.in_range h w) draws →
  Z.of_nat (size (Game.mines g ∪ list_to_set draws)) = n →
  ∃ g', Game.add_mines n draws g = Some g'
        ∧ Game.mines g' = Game.mines g ∪ list_to_set draws.
Proof.
  intros Hok Hdraws. revert g Hok.
  induction Hdraws as [|c draws Hc _ IH]; intros g Hok Hsz; simpl in *.
  - assert (Heq : Game.mines g ∪ ∅ = Game.mines g).
    { apply set_eq. intros x. rewrite elem_of_union. split; [|by left].
      intros [?|?%not_elem_of_empty]; done. }
    rewrite Heq in Hsz |- *. rewrite bool_decide_eq_false_2 by (intros Hn; by apply Hn).
    by exists g.
  - case_bool_decide as Hn.
    + destruct (place_mines g c Hok Hc) as [Hok' Hm].
      destruct (IH (Game.place g c) Hok') as (g' & Hadd & Hg').
      * rewrite Hm, <- Hsz. do 2 f_equal. apply set_eq. intros x.
        rewrite !elem_of_union. tauto.
      * exists g'. split; [done|]. rewrite Hg', Hm. apply set_eq. intros x.
        rewrite !elem_of_union. tauto.
    + exists g. split; [done|]. apply set_subseteq_size_eq.
      * intros x Hx. apply elem_of_union. by left.
      * lia.
Qed.

End constructor.

(** X11: when [Minesweeper(height, width, mines)] returns, given draws in
    the ranges of its [randrange] calls, the field has [height] rows of
    [width] cells, a cell is a mine of the field exactly when it is in
    [self.mines], [self.mines] has [mines] elements, all of them among the
    cells drawn, and [mines_found] is empty, so that [won] holds of the new
    game exactly when no mine was asked for. *)
Theorem constructor_builds_the_asked_game (h w n : Z) (draws : list Cell) (g : Game.t) :
  Forall (Game.in_range h w) draws →
  Game.init h w n draws = Some g →
  game_ok h w g ∧
  Z.of_nat (size (Game.mines g)) = n ∧
  Game.mines g ⊆ list_to_set draws ∧
  (Game.won g = true ↔ n = 0%Z).
Proof.
  intros Hdraws Hinit. unfold Game.init in Hinit.
  destruct (add_mines_result h w n draws _ g (game_ok_empty h w) Hdraws Hinit)
    as (Hok & Hsz & Hsub).
  split; [done|]. split; [done|]. split.
  - simpl in Hsub.
    intros x Hx%Hsub. apply elem_of_union in Hx as [?%not_elem_of_empty|?]; done.
  - unfold Game.won. rewrite bool_decide_eq_true, (ok_found _ _ _ Hok). split.
    + intros Hm. rewrite <- Hm, size_empty in Hsz. lia.
    + intros Hn. symmetry. apply size_zero_empty. lia.
Qed.

Lemma game_2x3_draws : Forall (Game.in_range 2 3) [(0, 1)%Z].
Proof. repeat constructor; simpl; lia. Qed.

Lemma game_2x3_built : Game.init 2 3 1 [(0, 1)%Z] = Some game_2x3.
Proof. vm_compute. reflexivity. Qed.

Lemma game_2x3_ok : game_ok 2 3 game_2x3.
Proof.
  exact (proj1 (add_mines_result 2 3 1 [(0, 1)%Z] _ game_2x3 (game_ok_empty 2 3)
                  game_2x3_draws game_2x3_built)).
Qed.

Lemma constructor_builds_the_asked_game_witness :
  Forall (Game.in_range 2 3) [(0, 1)%Z] ∧
  Game.init 2 3 1 [(0, 1)%Z] = Some game_2x3 ∧
  game_ok 2 3 game_2x3.
Proof.
  split; [exact game_2x3_draws|]. split; [exact game_2x3_built|].
  exact (proj1 (constructor_builds_the_asked_game 2 3 1 [(0, 1)%Z] game_2x3
                  game_2x3_draws game_2x3_built)).
Defined.

(** X12: the constructor returns as soon as the draws, all in range, have
    named [mines] different cells: repeated draws are skipped, and
    [self.mines] is then the set of the cells drawn.  With a negative number
    of mines it never returns, whatever is drawn. *)
Theorem constructor_returns (h w n : Z) (draws : list Cell) :
  (Forall (Game.in_range h w) draws →
   Z.of_nat (size (list_to_set draws : gset Cell)) = n →
   ∃ g, Game.init h w n draws = Some g ∧ Game.mines g = list_to_set draws) ∧
  ((n < 0)%Z → Forall (Game.in_range h w) draws → Game.init h w n draws = None).
Proof.
  split.
  - intros Hdraws Hsz. unfold Game.init.
    destruct (add_mines_returns h w n draws _ (game_ok_empty h w) Hdraws) as (g & Hg & Hm).
    + simpl. rewrite <- Hsz. do 2 f_equal. apply set_eq. intros x.
      rewrite elem_of_union. split; [|by right]. intros [?%not_elem_of_empty|?]; done.
    + exists g. split; [done|]. rewrite Hm. simpl. apply set_eq. intros x.
      rewrite elem_of_union. split; [|by right]. intros [?%not_elem_of_empty|?]; done.
  - intros Hneg Hdraws. destruct (Game.init h w n draws) as [g|] eqn:Hinit; [|done].
    unfold Game.init in Hinit.
    destruct (add_mines_result h w n draws _ g (game_ok_empty h w) Hdraws Hinit)
      as (_ & Hsz & _). lia.
Qed.

Lemma constructor_returns_witness :
  Forall (Game.in_range 2 3) [(0, 1)%Z; (0, 1)%Z; (1, 2)%Z] ∧
  Z.of_nat (size (list_to_set [(0, 1)%Z; (0, 1)%Z; (1, 2)%Z] : gset Cell)) = 2%Z ∧
  ∃ g, Game.init 2 3 2 [(0, 1)%Z; (0, 1)%Z; (1, 2)%Z] = Some g
       ∧ Game.mines g = list_to_set [(0, 1)%Z; (0, 1)%Z; (1, 2)%Z].
Proof.
  assert (Hd : Forall (Game.in_range 2 3) [(0, 1)%Z; (0, 1)%Z; (1, 2)%Z]).
  { repeat constructor; simpl; lia. }
  assert (Hs : Z.of_nat (size (list_to_set [(0, 1)%Z; (0, 1)%Z; (1, 2)%Z] : gset Cell)) = 2%Z)
    by (vm_compute; reflexivity).
  split; [exact Hd|]. split; [exact Hs|].
  exact (proj1 (constructor_returns 2 3 2 [(0, 1)%Z; (0, 1)%Z; (1, 2)%Z]) Hd Hs).
Defined.

(** ** Asking a built game *)

Lemma py_index_in_range {A} (l : list A) (i : Z) :
  (0 ≤ i)%Z → Game.py_index l i = l !! Z.to_nat i.
Proof. intros Hi. unfold Game.py_index. by rewrite bool_decide_eq_true_2. Qed.

Lemma py_index_negative {A} (l : list A) (i : Z) :
  (- Z.of_nat (length l) ≤ i < 0)%Z →
  Game.py_index l i = l !! Z.to_nat (Z.of_nat (length l) + i).
Proof.
  intros Hi. unfold Game.py_index.
  rewrite bool_decide_eq_false_2 by lia. by rewrite bool_decide_eq_true_2 by lia.
Qed.

Lemma py_index_out_of_range {A} (l : list A) (i : Z) :
  (Z.of_nat (length l) ≤ i ∨ i < - Z.of_nat (length l))%Z → Game.py_index l i = None.
Proof.
  intros Hi. unfold Game.py_index. case_bool_decide.
  - apply lookup_ge_None_2. lia.
  - rewrite bool_decide_eq_false_2 by lia. done.
Qed.

(** X13: on a game as the constructor builds it, [is_mine] of a cell of the
    field tells whether the cell is in [self.mines]; a row index lowered by
    [height] names the same row; a row index from [height] on, or below
    [-height], raises [IndexError]; and [nearby_mines] is the number of
    cells of [self.mines] around the cell. *)
Theorem asking_a_built_game (h w : Z) (g : Game.t) :
  game_ok h w g →
  (∀ c, Game.in_range h w c →
        Game.is_mine g c = Some (bool_decide (c ∈ Game.mines g))) ∧
  (∀ c, Game.in_range h w c → Game.is_mine g (c.1 - h, c.2)%Z = Game.is_mine g c) ∧
  (∀ c, (h ≤ c.1 ∨ c.1 < - h)%Z → Game.is_mine g c = None) ∧
  (∀ cell, Minesweeper.nearby_mines (Game.field g) cell
           = Z.of_nat (size (neighbours cell ∩ Game.mines g))).
Proof.
  intros Hok. pose proof Hok as [Hh Hw Hrows Hcols Hmines Hfound].
  assert (Hin : ∀ c, Game.in_range h w c →
            Game.is_mine g c = Some (bool_decide (c ∈ Game.mines g))).
  { intros c [Hi Hj]. unfold Game.is_mine.
    rewrite py_index_in_range by lia.
    destruct (Minesweeper.board (Game.field g) !! Z.to_nat c.1) as [row|] eqn:E;
      [|apply lookup_ge_None in E; lia].
    simpl. rewrite py_index_in_range by lia.
    pose proof (Forall_lookup_1 _ _ _ _ Hcols E) as Hrow. simpl in Hrow.
    destruct (row !! Z.to_nat c.2) as [v|] eqn:E2; [|apply lookup_ge_None in E2; lia].
    f_equal. symmetry.
    assert (Hv : Minesweeper.mine_in_bounds (Game.field g) c = v).
    { unfold Minesweeper.mine_in_bounds, Minesweeper.board_get.
      rewrite Hh, Hw, !bool_decide_eq_true_2 by done. simpl. by rewrite E; simpl; rewrite E2. }
    destruct v.
    - apply bool_decide_eq_true_2, Hmines. exact Hv.
    - apply bool_decide_eq_false_2. intros Hc%Hmines. unfold is_mine in Hc. congruence. }
  split; [exact Hin|]. split; [|split].
  - intros c [Hi Hj]. unfold Game.is_mine. cbn [fst snd].
    rewrite (py_index_in_range _ c.1) by lia.
    rewrite (py_index_negative _ (c.1 - h)) by lia.
    replace (Z.to_nat (Z.of_nat (length (Minesweeper.board (Game.field g))) + (c.1 - h)))
      with (Z.to_nat c.1) by lia. done.
  - intros c Hc. unfold Game.is_mine.
    rewrite (py_index_out_of_range _ c.1) by lia. done.
  - intros cell. rewrite nearby_mines_count. do 2 f_equal.
    apply set_eq. intros x. rewrite elem_of_filter, elem_of_intersection, Hmines. tauto.
Qed.

Lemma asking_a_built_game_witness :
  game_ok 2 3 game_2x3 ∧
  Minesweeper.nearby_mines (Game.field game_2x3) (0, 0)%Z
  = Z.of_nat (size (neighbours (0, 0)%Z ∩ Game.mines game_2x3)).
Proof.
  split; [exact game_2x3_ok|].
  exact (proj2 (proj2 (proj2 (asking_a_built_game 2 3 game_2x3 game_2x3_ok))) (0, 0)%Z).
Defined.

(** X14: an agent of the game's dimensions, run from its start through
    operations that agree with a game the constructor built, has only
    cells of the game's [self.mines] in its [mines], none of them in its
    [safes], and so never more cells in [mines] than the game has mines. *)
Theorem agent_on_a_built_game (h w n : Z) (draws : list Cell) (g : Game.t)
    (ops : list op) :
  Forall (Game.in_range h w) draws →
  Game.init h w n draws = Some g →
  Forall (consistent (Game.field g)) ops →
  let st := run ops (init h w) in
  mines st ⊆ Game.mines g ∧
  safes st ∩ Game.mines g = ∅ ∧
  (Z.of_nat (size (mines st)) ≤ n)%Z.
Proof.
  intros Hdraws Hinit Hops st. unfold Game.init in Hinit.
  destruct (add_mines_result h w n draws _ g (game_ok_empty h w) Hdraws Hinit)
    as (Hok & Hsz & _).
  assert (Hs : sound (Game.field g) st).
  { unfold st. rewrite <- (ok_height _ _ _ Hok), <- (ok_width _ _ _ Hok).
    apply sound_run; [done|apply sound_init]. }
  assert (Hsub : mines st ⊆ Game.mines g).
  { intros c Hc. by apply (ok_mines _ _ _ Hok), (sound_mines _ _ Hs). }
  split; [exact Hsub|]. split.
  - apply set_eq. intros c. rewrite elem_of_intersection.
    split; [|by intros ?%not_elem_of_empty].
    intros [Hc Hm%(ok_mines _ _ _ Hok)]. by destruct (sound_safes _ _ Hs c Hc).
  - apply subseteq_size in Hsub. lia.
Qed.

Lemma agent_on_a_built_game_witness :
  Forall (Game.in_range 2 3) [(0, 1)%Z] ∧
  Game.init 2 3 1 [(0, 1)%Z] = Some game_2x3 ∧
  Forall (consistent (Game.field game_2x3)) reveal_two ∧
  mines (run reveal_two (init 2 3)) ⊆ Game.mines game_2x3.
Proof.
  split; [exact game_2x3_draws|]. split; [exact game_2x3_built|].
  split; [exact reveal_two_consistent|].
  exact (proj1 (agent_on_a_built_game 2 3 1 [(0, 1)%Z] game_2x3 reveal_two
                  game_2x3_draws game_2x3_built reveal_two_consistent)).
Defined.

(** ** Loops over a set *)

(** X15: the state after [for c in cells: self.mark_mine(c)], and after the
    same loop with [mark_safe], does not depend on the order in which the
    loop visits the set. *)
Theorem marking_loops_ignore_the_order (cs : gset Cell) (l : list Cell)
    (st : MinesweeperAI.t) :
  l ≡ₚ elements cs →
  foldl (λ st c, mark_mine c st) st l = mark_mines cs st ∧
  foldl (λ st c, mark_safe c st) st l = mark_safes cs st.
Proof.
  intros Hp. split.
  - unfold mark_mines. apply foldl_comm_perm; [|done]. intros st' x y. apply mark_mine_comm.
  - unfold mark_safes. apply foldl_comm_perm; [|done]. intros st' x y. apply mark_safe_comm.
Qed.

Lemma marking_loops_ignore_the_order_witness :
  let cs : gset Cell := {[(0, 1)%Z; (1, 0)%Z]} in
  let st := run reveal_two (init 2 3) in
  reverse (elements cs) ≡ₚ elements cs ∧
  foldl (λ st c, mark_mine c st) st (reverse (elements cs)) = mark_mines cs st.
Proof.
  intros cs st.
  assert (Hp : reverse (elements cs) ≡ₚ elements cs) by apply reverse_Permutation.
  split; [exact Hp|].
  exact (proj1 (marking_loops_ignore_the_order cs (reverse (elements cs)) st Hp)).
Defined.

(** ** References stay valid *)

Lemma refs_valid_marks (cs : gset Cell) (st : MinesweeperAI.t) :
  refs_valid st → refs_valid (mark_mines cs st) ∧ refs_valid (mark_safes cs st).
Proof.
  intros Hv. split; intros a Ha.
  - rewrite knowledge_mark_mines in Ha. rewrite objects_mark_mines. by apply Hv.
  - rewrite knowledge_mark_safes in Ha. rewrite objects_mark_safes. by apply Hv.
Qed.

Lemma refs_valid_sublist (k : list loc) (st : MinesweeperAI.t) :
  (∀ a, a ∈ k → a ∈ knowledge st) → refs_valid st → refs_valid (set_knowledge k st).
Proof. intros Hk Hv a Ha. simpl in *. by apply Hv, Hk. Qed.

Lemma refs_valid_clean_up (st : MinesweeperAI.t) :
  refs_valid st → refs_valid (clean_up st).
Proof.
  apply refs_valid_sublist. intros a Ha.
  destruct (clean_up_loop_sublist st (knowledge st) []) as (k & Hk & Hsub).
  rewrite Hk in Ha. simpl in Ha. eapply elem_of_sublist; done.
Qed.

Lemma refs_valid_resolve (diff : gset Cell) (e : bool) (d : Z) (st : MinesweeperAI.t) :
  refs_valid st →
  refs_valid (resolve diff e d st)
  ∧ length (objects st) ≤ length (objects (resolve diff e d st)).
Proof.
  intros Hv. unfold resolve. case_bool_decide; [|done].
  destruct e.
  - split; [by apply refs_valid_marks|]. by rewrite objects_mark_safes.
  - case_bool_decide.
    + split; [by apply refs_valid_marks|]. by rewrite objects_mark_mines.
    + simpl. split; [|rewrite length_app; simpl; lia].
      intros a Ha. simpl in *. rewrite length_app. simpl.
      apply elem_of_app in Ha as [Ha|Ha].
      * apply Hv in Ha. lia.
      * apply list_elem_of_singleton in Ha as ->. lia.
Qed.

Lemma refs_valid_infer_step (new a : loc) (st : MinesweeperAI.t) :
  refs_valid st →
  refs_valid (infer_step new st a)
  ∧ length (objects st) ≤ length (objects (infer_step new st a)).
Proof.
  intros Hv%refs_valid_clean_up. unfold infer_step.
  change (length (objects st)) with (length (objects (clean_up st))).
  destruct (bool_decide (_ ⊆ _)); [by apply refs_valid_resolve|].
  destruct (bool_decide (_ ⊆ _)); [by apply refs_valid_resolve|done].
Qed.

Lemma refs_valid_foldl_infer_step (new : loc) (l : list loc) (st : MinesweeperAI.t) :
  refs_valid st →
  refs_valid (foldl (infer_step new) st l)
  ∧ length (objects st) ≤ length (objects (foldl (infer_step new) st l)).
Proof.
  revert st. induction l as [|a l IH]; intros st Hv; cbn [foldl]; [done|].
  destruct (refs_valid_infer_step new a st Hv) as [Hv' Hle].
  destruct (IH _ Hv') as [Hv'' Hle']. split; [done|lia].
Qed.

Lemma refs_valid_remove_knowns (st : MinesweeperAI.t) :
  refs_valid st → refs_valid (remove_knowns st).
Proof.
  intros Hv a Ha.
  assert (Hlen : length (objects (remove_knowns st)) = length (objects st)).
  { unfold remove_knowns, remove_loop.
    destruct (remove_fold_sublist (knowledge st) st []) as (kept & _ & _ & Hlen).
    destruct (foldl remove_step (st, []) (knowledge st)) as [st' nk]. done. }
  rewrite Hlen. apply Hv. eapply elem_of_sublist; [done|apply remove_knowns_sublist].
Qed.

Lemma refs_valid_observe (cell : Cell) (count : Z) (st : MinesweeperAI.t) :
  refs_valid st →
  let new := fst (observe cell count st) in
  let st1 := snd (observe cell count st) in
  refs_valid st1 ∧ (new ∉ knowledge st1) ∧ new < length (objects st1).
Proof.
  intros Hv. unfold observe.
  set (st2 := mark_safe cell (set_moves_made _ st)).
  assert (Hk : knowledge st2 = knowledge st) by (unfold st2; by rewrite mark_safe_unfold).
  assert (Hl : length (objects st2) = length (objects st)).
  { unfold st2. rewrite mark_safe_unfold. simpl. apply alter_all_length. }
  destruct (nearby_cells cell count st2) as [cells n]. simpl.
  rewrite length_app, Hk, Hl. simpl. split; [|split; [|lia]].
  - intros a Ha. simpl in Ha. rewrite Hk in Ha. simpl. rewrite length_app, Hl.
    apply Hv in Ha. simpl. lia.
  - intros Ha%Hv. lia.
Qed.

Lemma refs_valid_add_knowledge (cell : Cell) (count : Z) (st : MinesweeperAI.t) :
  refs_valid st → refs_valid (add_knowledge cell count st).
Proof.
  intros Hv. unfold add_knowledge, add_knowledge_appended.
  pose proof (refs_valid_observe cell count st Hv) as (Hv1 & _ & Hnew).
  destruct (observe cell count st) as [new st1]. simpl in Hv1, Hnew.
  destruct (refs_valid_foldl_infer_step new (knowledge st1) st1 Hv1) as [Hv2 Hle].
  apply refs_valid_remove_knowns, refs_valid_clean_up.
  intros a Ha. simpl in *.
  apply elem_of_app in Ha as [Ha|Ha].
  - by apply Hv2.
  - apply list_elem_of_singleton in Ha as ->. unfold make_inferences. lia.
Qed.

(** After any sequence of operations on a new agent, every reference in
    [knowledge] names a [Sentence] object that exists. *)
Lemma references_stay_valid (h w : Z) (ops : list op) :
  refs_valid (run ops (init h w)).
Proof.
  assert (Hgen : ∀ st, refs_valid st → refs_valid (run ops st)).
  { unfold run. induction ops as [|o ops IH]; intros st Hv; cbn [foldl]; [done|].
    apply IH. destruct o; simpl; try done.
    - intros a Ha. rewrite mark_mine_unfold in *. simpl in *.
      rewrite alter_all_length. by apply Hv.
    - intros a Ha. rewrite mark_safe_unfold in *. simpl in *.
      rewrite alter_all_length. by apply Hv.
    - by apply refs_valid_add_knowledge. }
  apply Hgen. intros a Ha. simpl in Ha. by apply elem_of_nil in Ha.
Qed.

(** ** Objects that [knowledge] does not refer to *)

Lemma alter_all_lookup_notin f l (o : list Sentence.t) (i : nat) :
  i ∉ l → alter_all f l o !! i = o !! i.
Proof.
  revert o. induction l as [|a l IH]; intros o Hi; [done|].
  rewrite alter_all_cons, IH by (intros ?; apply Hi; by right).
  apply list_lookup_alter_ne. intros ->. apply Hi. left.
Qed.

Lemma deref_mark_mine_notin (c : Cell) (st : MinesweeperAI.t) (a : loc) :
  a ∉ knowledge st → deref (mark_mine c st) a = deref st a.
Proof.
  intros Ha. rewrite mark_mine_unfold. unfold deref; simpl.
  by rewrite alter_all_lookup_notin.
Qed.

Lemma deref_mark_safe_notin (c : Cell) (st : MinesweeperAI.t) (a : loc) :
  a ∉ knowledge st → deref (mark_safe c st) a = deref st a.
Proof.
  intros Ha. rewrite mark_safe_unfold. unfold deref; simpl.
  by rewrite alter_all_lookup_notin.
Qed.

Lemma deref_mark_mines_notin (cs : gset Cell) (st : MinesweeperAI.t) (a : loc) :
  a ∉ knowledge st → deref (mark_mines cs st) a = deref st a.
Proof.
  unfold mark_mines. generalize (elements cs) as l. intros l. revert st.
  induction l as [|c l IH]; intros st Ha; simpl; [done|].
  rewrite IH; [by apply deref_mark_mine_notin|]. by rewrite mark_mine_unfold.
Qed.

Lemma deref_mark_safes_notin (cs : gset Cell) (st : MinesweeperAI.t) (a : loc) :
  a ∉ knowledge st → deref (mark_safes cs st) a = deref st a.
Proof.
  unfold mark_safes. generalize (elements cs) as l. intros l. revert st.
  induction l as [|c l IH]; intros st Ha; simpl; [done|].
  rewrite IH; [by apply deref_mark_safe_notin|]. by rewrite mark_safe_unfold.
Qed.

Lemma clean_up_elem_of (st : MinesweeperAI.t) (a : loc) :
  a ∈ knowledge (clean_up st) → a ∈ knowledge st.
Proof.
  intros Ha. destruct (clean_up_loop_sublist st (knowledge st) []) as (k & Hk & Hsub).
  unfold clean_up in Ha. simpl in Ha. rewrite Hk in Ha. simpl in Ha.
  eapply elem_of_sublist; done.
Qed.

Lemma untouched_resolve (new : loc) (diff : gset Cell) (e : bool) (d : Z)
    (st : MinesweeperAI.t) :
  new ∉ knowledge st → new < length (objects st) →
  let st' := resolve diff e d st in
  (new ∉ knowledge st') ∧ new < length (objects st') ∧ deref st' new = deref st new.
Proof.
  intros Hk Hl. unfold resolve. case_bool_decide; [|done].
  destruct e.
  - rewrite knowledge_mark_safes, objects_mark_safes.
    split; [done|]. split; [done|]. by apply deref_mark_safes_notin.
  - case_bool_decide.
    + rewrite knowledge_mark_mines, objects_mark_mines.
      split; [done|]. split; [done|]. by apply deref_mark_mines_notin.
    + simpl. rewrite length_app. simpl. split; [|split; [lia|]].
      * intros [Hin|Hin]%elem_of_app; [done|].
        apply list_elem_of_singleton in Hin. lia.
      * unfold deref; simpl. by rewrite lookup_app_l.
Qed.

Lemma untouched_infer_step (new a : loc) (st : MinesweeperAI.t) :
  new ∉ knowledge st → new < length (objects st) →
  let st' := infer_step new st a in
  (new ∉ knowledge st') ∧ new < length (objects st') ∧ deref st' new = deref st new.
Proof.
  intros Hk Hl. unfold infer_step.
  assert (Hk' : new ∉ knowledge (clean_up st)).
  { intros Hin%clean_up_elem_of. done. }
  change (deref st new) with (deref (clean_up st) new).
  destruct (bool_decide (_ ⊆ _)); [by apply untouched_resolve|].
  destruct (bool_decide (_ ⊆ _)); [by apply untouched_resolve|done].
Qed.

Lemma untouched_foldl_infer_step (new : loc) (l : list loc) (st : MinesweeperAI.t) :
  new ∉ knowledge st → new < length (objects st) →
  let st' := foldl (infer_step new) st l in
  (new ∉ knowledge st') ∧ new < length (objects st') ∧ deref st' new = deref st new.
Proof.
  revert st. induction l as [|a l IH]; intros st Hk Hl; cbn [foldl]; [done|].
  destruct (untouched_infer_step new a st Hk Hl) as (Hk' & Hl' & Hd).
  destruct (IH _ Hk' Hl') as (Hk'' & Hl'' & Hd'). cbv zeta. rewrite Hd', Hd. done.
Qed.

(** X16: [make_inferences] does not change the new sentence it is given,
    which [knowledge] does not refer to yet, and does not put it into
    [knowledge]: the cells it marks are removed from the sentences of
    [knowledge] only. *)
Theorem inference_leaves_the_new_sentence (new : loc) (st : MinesweeperAI.t) :
  new ∉ knowledge st → new < length (objects st) →
  deref (make_inferences new st) new = deref st new ∧
  new ∉ knowledge (make_inferences new st).
Proof.
  intros Hk Hl.
  destruct (untouched_foldl_infer_step new (knowledge st) st Hk Hl) as (Hk' & _ & Hd).
  done.
Qed.

Lemma inference_leaves_the_new_sentence_witness :
  let st := mk 3 3 ∅ ∅ ∅ [0]
              [Sentence.init {[(0, 0)%Z; (0, 1)%Z; (0, 2)%Z]} 1;
               Sentence.init {[(0, 0)%Z; (0, 1)%Z]} 1] in
  (1 ∉ knowledge st) ∧ 1 < length (objects st) ∧
  deref (make_inferences 1 st) 1 = deref st 1.
Proof.
  intros st.
  assert (Hk : 1 ∉ knowledge st) by decide_by_evaluation.
  assert (Hl : 1 < length (objects st)) by (simpl; lia).
  split; [exact Hk|]. split; [exact Hl|].
  exact (proj1 (inference_leaves_the_new_sentence 1 st Hk Hl)).
Defined.

(** ** Sentences that are resolved when [remove_knowns] starts *)

Lemma tracks_refl (st : MinesweeperAI.t) : tracks st st.
Proof.
  constructor; [done|apply grows_refl|done|].
  intros a _ x Hx. apply elem_of_union_l, elem_of_union_l, Hx.
Qed.

Lemma tracks_trans (st1 st2 st3 : MinesweeperAI.t) :
  tracks st1 st2 → tracks st2 st3 → tracks st1 st3.
Proof.
  intros [K1 G1 S1 C1] [K2 G2 S2 C2]. constructor.
  - congruence.
  - by eapply grows_trans.
  - intros a Ha x Hx. apply (S1 a Ha). apply (S2 a); [by rewrite K1|done].
  - intros a Ha x Hx. apply (C1 a Ha) in Hx.
    destruct G2 as [Gs Gm _].
    rewrite !elem_of_union in Hx. destruct Hx as [[Hx|Hx]|Hx].
    + apply (C2 a); [by rewrite K1|done].
    + apply elem_of_union_l, elem_of_union_r, Gs, Hx.
    + apply elem_of_union_r, Gm, Hx.
Qed.

Lemma tracks_mark_mine (c : Cell) (st : MinesweeperAI.t) : tracks st (mark_mine c st).
Proof.
  constructor.
  - by rewrite mark_mine_unfold.
  - apply grows_mark_mine.
  - intros a Ha x. rewrite (deref_mark_mine_in c st a Ha). unfold Sentence.mark_mine.
    case_bool_decide; simpl; [|done]. rewrite elem_of_difference. tauto.
  - intros a Ha x Hx. rewrite (deref_mark_mine_in c st a Ha).
    assert (Hm : c ∈ mines (mark_mine c st)).
    { rewrite mark_mine_unfold; simpl. apply elem_of_union_l. by apply elem_of_singleton. }
    destruct (decide (x = c)) as [->|Hne]; [by apply elem_of_union_r|].
    apply elem_of_union_l, elem_of_union_l. unfold Sentence.mark_mine.
    case_bool_decide; simpl; [|done].
    rewrite elem_of_difference, elem_of_singleton. done.
Qed.

Lemma tracks_mark_safe (c : Cell) (st : MinesweeperAI.t) : tracks st (mark_safe c st).
Proof.
  constructor.
  - by rewrite mark_safe_unfold.
  - apply grows_mark_safe.
  - intros a Ha x. rewrite (deref_mark_safe_in c st a Ha). unfold Sentence.mark_safe.
    case_bool_decide; simpl; [|done]. rewrite elem_of_difference. tauto.
  - intros a Ha x Hx. rewrite (deref_mark_safe_in c st a Ha).
    assert (Hm : c ∈ safes (mark_safe c st)).
    { rewrite mark_safe_unfold; simpl. apply elem_of_union_l. by apply elem_of_singleton. }
    destruct (decide (x = c)) as [->|Hne]; [by apply elem_of_union_l, elem_of_union_r|].
    apply elem_of_union_l, elem_of_union_l. unfold Sentence.mark_safe.
    case_bool_decide; simpl; [|done].
    rewrite elem_of_difference, elem_of_singleton. done.
Qed.

Lemma tracks_foldl {A} (f : MinesweeperAI.t → A → MinesweeperAI.t) (l : list A)
    (st : MinesweeperAI.t) :
  (∀ st x, tracks st (f st x)) → tracks st (foldl f st l).
Proof.
  intros Hf. revert st. induction l as [|x l IH]; intros st; simpl.
  - apply tracks_refl.
  - eapply tracks_trans; [apply Hf|apply IH].
Qed.

Lemma tracks_remove_step (st : MinesweeperAI.t) (nk : list loc) (a : loc) :
  tracks st (fst (remove_step (st, nk) a)).
Proof.
  unfold remove_step.
  destruct (truthy (Sentence.known_mines _)); simpl.
  { apply tracks_foldl. intros. apply tracks_mark_mine. }
  destruct (truthy (Sentence.known_safes _)); simpl.
  { apply tracks_foldl. intros. apply tracks_mark_safe. }
  apply tracks_refl.
Qed.

Lemma tracks_foldl_remove_step (l : list loc) (acc : MinesweeperAI.t * list loc) :
  tracks (fst acc) (fst (foldl remove_step acc l)).
Proof.
  revert acc. induction l as [|a l IH]; intros [st nk]; cbn [foldl fst];
    [apply tracks_refl|].
  eapply tracks_trans; [apply (tracks_remove_step st nk a)|]. apply IH.
Qed.

(** What the visit of [a] marks, in the pass over [pre ++ a :: post]. *)
Lemma remove_visit_marks (st : MinesweeperAI.t) (pre post : list loc) (a : loc) :
  knowledge st = pre ++ a :: post →
  let sta := fst (remove_loop st pre) in
  let s := deref sta a in
  (Sentence.cells s ≠ ∅ → Z.of_nat (size (Sentence.cells s)) = Sentence.count s →
   Sentence.cells s ⊆ mines (remove_knowns st)) ∧
  (Sentence.cells s ≠ ∅ → Sentence.count s = 0%Z →
   Sentence.cells s ⊆ safes (remove_knowns st)) ∧
  grows sta (remove_knowns st).
Proof.
  intros Hk sta s. unfold remove_knowns. unfold remove_loop at 1 2 3. rewrite Hk, foldl_app.
  cbn [foldl]. unfold s, sta, remove_loop. clear s sta.
  destruct (foldl remove_step (st, []) pre) as [stp nkp]. cbn [fst].
  pose proof (grows_remove_step stp nkp a) as G1.
  pose proof (grows_foldl_remove_step post (remove_step (stp, nkp) a)) as G2.
  assert (G : grows stp (fst (foldl remove_step (remove_step (stp, nkp) a) post)))
    by by eapply grows_trans.
  destruct (remove_step_cases stp nkp a) as [(Hne & Hfull & E)|[(Hne & Hzero & E)|(Hno & E)]];
    rewrite E in G, G2 |- *;
    destruct (foldl remove_step _ post) as [st' nk]; simpl in *.
  - split; [|split; [|destruct G; by constructor]].
    + intros _ _ c Hc. apply (grows_mines _ _ G2). by apply mark_mines_elem_of.
    + intros _ Hzero. destruct Hne. apply size_zero_empty. lia.
  - split; [|split; [|destruct G; by constructor]].
    + intros _ Hfull. destruct Hne. apply size_zero_empty. lia.
    + intros _ _ c Hc. apply (grows_safes _ _ G2). by apply mark_safes_elem_of.
  - split; [|split; [|destruct G; by constructor]].
    + intros Hne Hfull. destruct Hno. split; [done|]. by right.
    + intros Hne Hzero. destruct Hno. split; [done|]. by left.
Qed.

Lemma remove_knowns_marks_known (b : Minesweeper.t) (st : MinesweeperAI.t)
    (a : loc) :
  sound b st → a ∈ knowledge st →
  let s := deref st a in
  (Sentence.count s = 0%Z → Sentence.cells s ⊆ safes (remove_knowns st)) ∧
  (Z.of_nat (size (Sentence.cells s)) = Sentence.count s →
   Sentence.cells s ⊆ mines (remove_knowns st)).
Proof.
  intros Hs Ha s.
  destruct (list_elem_of_split _ _ Ha) as (pre & post & Hk).
  pose proof (remove_visit_marks st pre post a Hk) as (Vm & Vs & G). cbv zeta in *.
  pose proof (tracks_foldl_remove_step pre (st, [])) as T. cbn [fst] in T.
  pose proof (sound_foldl_remove_step b pre (st, []) Hs) as Hsa. cbn [fst] in Hsa.
  fold (remove_loop st pre) in T, Hsa.
  set (sta := fst (remove_loop st pre)) in *. set (sa := deref sta a) in *.
  pose proof (sound_deref b st a Hs) as Ht. fold s in Ht.
  pose proof (sound_deref b sta a Hsa) as Hta. fold sa in Hta.
  pose proof (tracks_shrink _ _ T a Ha) as Hshrink. fold s sa in Hshrink.
  pose proof (tracks_cells _ _ T a Ha) as Hcells. fold s sa in Hcells.
  split.
  - intros Hzero x Hx.
    pose proof (true_of_zero b s) as Hnm.
    assert (Hsa0 : Sentence.count sa = 0%Z).
    { unfold true_of in Hta. rewrite Hta.
      assert (Hemp : filter (is_mine b) (Sentence.cells sa) = ∅).
      { apply set_eq. intros y. rewrite elem_of_filter.
        split; [|by intros ?%not_elem_of_empty].
        intros [Hy Hin]. destruct (Hnm y Ht Hzero (Hshrink y Hin) Hy). }
      by rewrite Hemp, size_empty. }
    pose proof (Hcells x Hx) as Hx'. rewrite !elem_of_union in Hx'.
    destruct Hx' as [[Hx'|Hx']|Hx'].
    + apply Vs; [|done|done]. intros Hemp. rewrite Hemp in Hx'.
      by apply not_elem_of_empty in Hx'.
    + by apply (grows_safes _ _ G).
    + destruct (Hnm x Ht Hzero Hx). by apply (sound_mines _ _ Hsa).
  - intros Hfull x Hx.
    pose proof (true_of_full b s) as Hm.
    assert (Hsaf : Z.of_nat (size (Sentence.cells sa)) = Sentence.count sa).
    { unfold true_of in Hta. rewrite Hta.
      assert (Hall : filter (is_mine b) (Sentence.cells sa) = Sentence.cells sa).
      { apply set_eq. intros y. rewrite elem_of_filter. split; [tauto|].
        intros Hin. split; [|done]. apply (Hm y Ht Hfull (Hshrink y Hin)). }
      by rewrite Hall. }
    pose proof (Hcells x Hx) as Hx'. rewrite !elem_of_union in Hx'.
    destruct Hx' as [[Hx'|Hx']|Hx'].
    + apply Vm; [|done|done]. intros Hemp. rewrite Hemp in Hx'.
      by apply not_elem_of_empty in Hx'.
    + destruct (sound_safes _ _ Hsa x Hx'). by apply (Hm x Ht Hfull).
    + by apply (grows_mines _ _ G).
Qed.

(** X17: on a state in which everything recorded is a fact of a board,
    [remove_knowns] puts in [safes] every cell of every sentence that
    [knowledge] refers to with count zero when it starts, and in [mines]
    every cell of every sentence whose count is then the number of its
    cells, also when earlier marks of the same pass reach the sentence
    first. *)
Theorem known_at_the_start_is_marked (b : Minesweeper.t) (st : MinesweeperAI.t)
    (s : Sentence.t) :
  sound b st → s ∈ sentences st →
  (Sentence.count s = 0%Z → Sentence.cells s ⊆ safes (remove_knowns st)) ∧
  (Z.of_nat (size (Sentence.cells s)) = Sentence.count s →
   Sentence.cells s ⊆ mines (remove_knowns st)).
Proof.
  intros Hs (a & -> & Ha)%list_elem_of_fmap.
  by apply (remove_knowns_marks_known b st a).
Qed.

Lemma known_at_the_start_is_marked_witness :
  let st := mk 2 3 ∅ ∅ ∅ [0] [Sentence.init {[(0, 1)%Z]} 1] in
  sound board_2x3 st ∧ Sentence.init {[(0, 1)%Z]} 1 ∈ sentences st ∧
  (0, 1)%Z ∈ mines (remove_knowns st).
Proof.
  intros st.
  assert (Hs : sound board_2x3 st).
  { constructor; simpl; try done. repeat constructor. }
  assert (Hin : Sentence.init {[(0, 1)%Z]} 1 ∈ sentences st) by (vm_compute; left).
  split; [exact Hs|]. split; [exact Hin|].
  apply (proj2 (known_at_the_start_is_marked board_2x3 st _ Hs Hin)).
  - vm_compute. reflexivity.
  - simpl. by apply elem_of_singleton.
Defined.

Lemma add_knowledge_marks_known (b : Minesweeper.t) (cell : Cell)
    (st : MinesweeperAI.t) :
  sound b st → refs_valid st → ¬ is_mine b cell →
  let n := Minesweeper.nearby_mines b cell in
  let s := deref (snd (observe cell n st)) (fst (observe cell n st)) in
  (Sentence.count s = 0%Z → Sentence.cells s ⊆ safes (add_knowledge cell n st)) ∧
  (Z.of_nat (size (Sentence.cells s)) = Sentence.count s →
   Sentence.cells s ⊆ mines (add_knowledge cell n st)).
Proof.
  intros Hs Hv Hcell n s.
  pose proof (sound_observe b cell st Hcell Hs) as Hs1.
  pose proof (refs_valid_observe cell n st Hv) as (Hv1 & Hk1 & Hl1).
  unfold add_knowledge, add_knowledge_appended. fold n in Hs1. unfold s. clear s.
  destruct (observe cell n st) as [new st1]. cbn [fst snd] in *.
  destruct (untouched_foldl_infer_step new (knowledge st1) st1 Hk1 Hl1) as (_ & _ & Hd).
  fold (make_inferences new st1) in Hd.
  set (st2 := make_inferences new st1) in *.
  set (st3 := set_knowledge (knowledge st2 ++ [new]) st2).
  assert (Hs4 : sound b (clean_up st3)).
  { by apply sound_clean_up, sound_set_knowledge, sound_make_inferences. }
  assert (Hin : deref st1 new ∈ sentences (clean_up st3)).
  { rewrite clean_up_sentences. apply (first_occurrences_elem_of []).
    unfold sentences, st3; simpl. change (deref (set_knowledge _ st2)) with (deref st2).
    rewrite fmap_app. apply elem_of_app. right. simpl. rewrite Hd. left. }
  apply list_elem_of_fmap in Hin as (a & Hda & Ha).
  rewrite Hda. by apply (remove_knowns_marks_known b (clean_up st3) a).
Qed.

(** X18: after any run from a new agent that agrees with a board, when
    [add_knowledge] is given a cell that is not a mine and the board's count
    for it: if the sentence it builds from the cells around has count zero,
    all these cells are in [safes] when it returns, and if the count is the
    number of these cells, they are all in [mines]. *)
Theorem revealed_cell_settles_its_neighbours (b : Minesweeper.t) (ops : list op)
    (cell : Cell) :
  Forall (consistent b) ops → ¬ is_mine b cell →
  let st := run ops (init (Minesweeper.height b) (Minesweeper.width b)) in
  let n := Minesweeper.nearby_mines b cell in
  let s := deref (snd (observe cell n st)) (fst (observe cell n st)) in
  (Sentence.count s = 0%Z → Sentence.cells s ⊆ safes (add_knowledge cell n st)) ∧
  (Z.of_nat (size (Sentence.cells s)) = Sentence.count s →
   Sentence.cells s ⊆ mines (add_knowledge cell n st)).
Proof.
  intros Hops Hcell st.
  apply add_knowledge_marks_known; [|apply references_stay_valid|done].
  apply sound_run; [done|apply sound_init].
Qed.

Lemma reveal_one_consistent : Forall (consistent board_1x4) reveal_one.
Proof.
  unfold reveal_one. repeat constructor; try (vm_compute; reflexivity);
    intros Hm; vm_compute in Hm; discriminate.
Defined.

Lemma revealed_cell_settles_its_neighbours_witness :
  (Forall (consistent board_1x4) reveal_one ∧ ¬ is_mine board_1x4 (0, 1)%Z ∧
   let st := run reveal_one (init 1 4) in
   let n := Minesweeper.nearby_mines board_1x4 (0, 1)%Z in
   let s := deref (snd (observe (0, 1)%Z n st)) (fst (observe (0, 1)%Z n st)) in
   Sentence.count s = 0%Z ∧ (0, 2)%Z ∈ Sentence.cells s ∧
   Sentence.cells s ⊆ safes (add_knowledge (0, 1)%Z n st)) ∧
  (Forall (consistent board_2x3) reveal_two ∧ ¬ is_mine board_2x3 (1, 0)%Z ∧
   let st := run reveal_two (init 2 3) in
   let n := Minesweeper.nearby_mines board_2x3 (1, 0)%Z in
   let s := deref (snd (observe (1, 0)%Z n st)) (fst (observe (1, 0)%Z n st)) in
   Z.of_nat (size (Sentence.cells s)) = Sentence.count s ∧
   (0, 1)%Z ∈ Sentence.cells s ∧
   Sentence.cells s ⊆ mines (add_knowledge (1, 0)%Z n st)).
Proof.
  assert (Hc1 : ¬ is_mine board_1x4 (0, 1)%Z).
  { intros Hm. vm_compute in Hm. discriminate. }
  assert (Hc2 : ¬ is_mine board_2x3 (1, 0)%Z).
  { intros Hm. vm_compute in Hm. discriminate. }
  split.
  - split; [exact reveal_one_consistent|]. split; [exact Hc1|].
    intros st n s.
    assert (Hz : Sentence.count s = 0%Z) by (vm_compute; reflexivity).
    split; [exact Hz|]. split; [decide_by_evaluation|].
    exact (proj1 (revealed_cell_settles_its_neighbours board_1x4 reveal_one (0, 1)%Z
                    reveal_one_consistent Hc1) Hz).
  - split; [exact reveal_two_consistent|]. split; [exact Hc2|].
    intros st n s.
    assert (Hf : Z.of_nat (size (Sentence.cells s)) = Sentence.count s)
      by (vm_compute; reflexivity).
    split; [exact Hf|]. split; [decide_by_evaluation|].
    exact (proj2 (revealed_cell_settles_its_neighbours board_2x3 reveal_two (1, 0)%Z
                    reveal_two_consistent Hc2) Hf).
Defined.
